(** * Deterministic two-phase lock manager (txn/lock_manager.cc)

    A shallow embedding of the two lock managers of the repository,
    [LockManagerA] (exclusive locks only) and [LockManagerB] (shared and
    exclusive locks), together with the properties their specification
    states about them.

    The C++ objects are modelled as follows.
    - [lock_table_], an [unordered_map<Key, deque<LockRequest>*>], is a
      [gmap Key (list LockRequest)]; a deque is the list of its elements,
      front first.  A key that was never looked up is absent from the map;
      [_getLockQueue] creates its (empty) deque on first access, as the
      source does.
    - [txn_waits_], an [unordered_map<Txn*, int>], is a [gmap Txn Z].  The
      counters are C++ [int]s; they are modelled as unbounded integers
      (they move by one per call, and signed overflow has no defined
      behaviour in the source anyway).
    - [ready_txns_], a pointer to the caller's [deque<Txn*>], is the list of
      the elements of that deque, front first.
    - A [Txn*] is compared by address only, so a transaction is an element
      of an arbitrary countable type [Txn]. *)

From Stdlib Require Import ZArith.
From stdpp Require Import base option list gmap strings.

Local Open Scope Z_scope.

(** ** Lock modes *)

(** Modelled from the spec: the enumeration [LockMode] declared in
    txn/lock_manager.h.  [Status] answers [UNLOCKED], [SHARED] or
    [EXCLUSIVE]; a request carries [SHARED] or [EXCLUSIVE], and the source
    compares and assigns the mode of a request and the answer of [Status]
    as values of this one type. *)
Inductive LockMode : Type :=
  | UNLOCKED
  | SHARED
  | EXCLUSIVE.

#[global] Instance LockMode_eq_dec : EqDecision LockMode.
Proof. solve_decision. Defined.

Section LockManager.

Context {Key Txn : Type}.
Context `{Countable Key} `{Countable Txn}.

(** Modelled from the spec: the structure [LockRequest] declared in
    txn/lock_manager.h, a pair of a mode and a transaction, built in the
    source as [LockRequest(mode, txn)] and read through [mode_] and
    [txn_]. *)
Record LockRequest : Type := mkLockRequest {
  mode_ : LockMode;
  txn_ : Txn
}.

#[global] Instance LockRequest_eq_dec : EqDecision LockRequest.
Proof. solve_decision. Defined.

(** Modelled from the spec: the members of [LockManager] declared in
    txn/lock_manager.h.  [lock_table_] maps a key to its queue of requests,
    [txn_waits_] maps a transaction to the number of its requests not yet
    granted (an [int] in the source), and [ready_txns_] is the queue of the
    caller that receives the transactions whose count reaches zero. *)
Record LockManager : Type := mkLockManager {
  lock_table_ : gmap Key (list LockRequest);
  txn_waits_ : gmap Txn Z;
  ready_txns_ : list Txn
}.

(** The manager right after construction, with an empty ready queue. *)
Definition new_manager : LockManager :=
  mkLockManager ∅ ∅ [].

(** ** A state monad for the member functions *)

Definition LM (A : Type) : Type := LockManager → A * LockManager.

#[global] Instance LM_ret : MRet LM := λ A x st, (x, st).
#[global] Instance LM_bind : MBind LM :=
  λ A B f m st, let '(x, st') := m st in f x st'.

(** ** Primitive accesses to the three members *)

(** [dq->...] writes through the pointer stored in the table: the deque of
    [key] is replaced by its new contents. *)
Definition store_queue (key : Key) (dq : list LockRequest) : LM unit :=
  λ st, (tt, mkLockManager (<[key := dq]> (lock_table_ st))
                           (txn_waits_ st) (ready_txns_ st)).

(** [txn_waits_[txn]]: the entry of [txn], value-initialised to 0 when it
    is missing. *)
Definition wait_entry (waits : gmap Txn Z) (txn : Txn) : Z :=
  default 0 (waits !! txn).

(** [txn_waits_[txn]++]. *)
Definition incr_wait (txn : Txn) : LM unit :=
  λ st, (tt, mkLockManager (lock_table_ st)
                           (<[txn := wait_entry (txn_waits_ st) txn + 1]> (txn_waits_ st))
                           (ready_txns_ st)).

(** [--txn_waits_[txn]], whose value is the decremented counter. *)
Definition decr_wait (txn : Txn) : LM Z :=
  λ st, let c := wait_entry (txn_waits_ st) txn - 1 in
        (c, mkLockManager (lock_table_ st)
                          (<[txn := c]> (txn_waits_ st))
                          (ready_txns_ st)).

(** [txn_waits_.erase(txn)]. *)
Definition erase_wait (txn : Txn) : LM unit :=
  λ st, (tt, mkLockManager (lock_table_ st)
                           (delete txn (txn_waits_ st))
                           (ready_txns_ st)).

(** [ready_txns_->push_back(txn)]. *)
Definition push_ready (txn : Txn) : LM unit :=
  λ st, (tt, mkLockManager (lock_table_ st) (txn_waits_ st)
                           (ready_txns_ st ++ [txn])).

(** ** [LockManager::_getLockQueue] *)

Definition _getLockQueue (key : Key) : LM (list LockRequest) :=
  λ st, match lock_table_ st !! key with
        | Some dq => (dq, st)
        | None =>
            ([], mkLockManager (<[key := []]> (lock_table_ st))
                               (txn_waits_ st) (ready_txns_ st))
        end.

(** ** Policy A: exclusive locks only *)

Definition WriteLockA (txn : Txn) (key : Key) : LM bool :=
  let rq := mkLockRequest EXCLUSIVE txn in
  dq ← _getLockQueue key;
  let empty := bool_decide (dq = []) in
  store_queue key (dq ++ [rq]);;
  (if negb empty then incr_wait txn else mret tt);;
  mret empty.

Definition ReadLockA (txn : Txn) (key : Key) : LM bool :=
  WriteLockA txn key.

(** The scan of [LockManagerA::Release]: the first request of [txn] is
    erased; [removedOwner] is cleared by every iteration that does not
    match. *)
Fixpoint erase_scan_A (txn : Txn) (queue : list LockRequest)
    (removedOwner : bool) : list LockRequest * bool :=
  match queue with
  | [] => ([], removedOwner)
  | it :: rest =>
      if decide (txn_ it = txn) then (rest, removedOwner)
      else let '(rest', b) := erase_scan_A txn rest false in
           (it :: rest', b)
  end.

Definition ReleaseA (txn : Txn) (key : Key) : LM unit :=
  queue ← _getLockQueue key;
  let '(queue', removedOwner) := erase_scan_A txn queue true in
  store_queue key queue';;
  (* if (!queue->empty() && removedOwner), with next = queue->front() *)
  match queue' with
  | next :: _ =>
      if removedOwner then
        wait_count ← decr_wait (txn_ next);
        if decide (wait_count = 0) then
          push_ready (txn_ next);;
          erase_wait (txn_ next)
        else mret tt
      else mret tt
  | [] => mret tt
  end.

(** [owners] is the vector the caller passes by address; policy A writes
    through it without a null test, so it is always a vector here.  The
    second component of the result is its contents on return. *)
Definition StatusA (key : Key) (owners : list Txn) : LM (LockMode * list Txn) :=
  dq ← _getLockQueue key;
  match dq with
  | [] => mret (UNLOCKED, owners)
  | front :: _ => mret (EXCLUSIVE, [txn_ front])
  end.

(** ** Policy B: shared and exclusive locks *)

(** The loop of [LockManagerB::Status] over the deque, with its two local
    variables [mode] and [txn_owners]. *)
Fixpoint status_loop (dq : list LockRequest) (mode : LockMode)
    (txn_owners : list Txn) : LockMode * list Txn :=
  match dq with
  | [] => (mode, txn_owners)
  | lockRequest :: rest =>
      if bool_decide (mode_ lockRequest = EXCLUSIVE) && bool_decide (mode = SHARED)
      then (mode, txn_owners)
      else
        let txn_owners := txn_owners ++ [txn_ lockRequest] in
        let mode := mode_ lockRequest in
        if bool_decide (mode = EXCLUSIVE) then (mode, txn_owners)
        else status_loop rest mode txn_owners
  end.

(** [owners] is [None] for a null pointer and [Some v] for the address of a
    vector whose contents are [v]; the second component of the result is
    the contents of that vector on return. *)
Definition StatusB (key : Key) (owners : option (list Txn))
    : LM (LockMode * option (list Txn)) :=
  dq ← _getLockQueue key;
  match dq with
  | [] => mret (UNLOCKED, owners)
  | _ :: _ =>
      let '(mode, txn_owners) := status_loop dq EXCLUSIVE [] in
      mret (mode, match owners with
                  | Some _ => Some txn_owners
                  | None => None
                  end)
  end.

(** The loop of [LockManagerB::_noExclusiveWaiting]. *)
Fixpoint no_exclusive_loop (dq : list LockRequest) : bool :=
  match dq with
  | [] => true
  | lr :: rest =>
      if bool_decide (mode_ lr = EXCLUSIVE) then false
      else no_exclusive_loop rest
  end.

Definition _noExclusiveWaiting (key : Key) : LM bool :=
  dq ← _getLockQueue key;
  mret (no_exclusive_loop dq).

Definition WriteLockB (txn : Txn) (key : Key) : LM bool :=
  let rq := mkLockRequest EXCLUSIVE txn in
  '(status, _) ← StatusB key None;
  dq ← _getLockQueue key;
  store_queue key (dq ++ [rq]);;
  let granted := bool_decide (status = UNLOCKED) in
  (if negb granted then incr_wait txn else mret tt);;
  mret granted.

Definition ReadLockB (txn : Txn) (key : Key) : LM bool :=
  let rq := mkLockRequest SHARED txn in
  '(status, _) ← StatusB key None;
  dq ← _getLockQueue key;
  store_queue key (dq ++ [rq]);;
  granted ← (if bool_decide (status = UNLOCKED) then mret true
             else _noExclusiveWaiting key);
  (if negb granted then incr_wait txn else mret tt);;
  mret granted.

(** The scan of [LockManagerB::Release]: the first request of [txn] is
    erased. *)
Fixpoint erase_scan_B (txn : Txn) (queue : list LockRequest)
    : list LockRequest :=
  match queue with
  | [] => []
  | it :: rest =>
      if decide (txn_ it = txn) then rest
      else it :: erase_scan_B txn rest
  end.

(** One iteration of the loop over [newOwners]. *)
Definition promote_owner (owner : Txn) : LM unit :=
  λ st, match txn_waits_ st !! owner with
        | None => (tt, st)
        | Some c =>
            let c' := c - 1 in
            let st' := mkLockManager (lock_table_ st)
                                     (<[owner := c']> (txn_waits_ st))
                                     (ready_txns_ st) in
            if decide (c' = 0) then
              (push_ready owner;; erase_wait owner) st'
            else (tt, st')
        end.

Fixpoint promote_owners (newOwners : list Txn) : LM unit :=
  match newOwners with
  | [] => mret tt
  | owner :: rest => promote_owner owner;; promote_owners rest
  end.

Definition ReleaseB (txn : Txn) (key : Key) : LM unit :=
  queue ← _getLockQueue key;
  store_queue key (erase_scan_B txn queue);;
  '(_, newOwners) ← StatusB key (Some []);
  promote_owners (default [] newOwners).

(** ** Observations on a state *)

(** The contents of the deque of [key]; a key without a deque yet is
    observed as an empty queue, which is what every member function sees
    after [_getLockQueue]. *)
Definition queue_of (st : LockManager) (key : Key) : list LockRequest :=
  default [] (lock_table_ st !! key).

(** [touch key st] is the state after [_getLockQueue key]: the deque of
    [key] exists, empty if it had to be created. *)
Definition touch (key : Key) (st : LockManager) : LockManager :=
  (_getLockQueue key st).2.

(** Two states are observationally equal when they differ at most by
    deques that exist, empty, in one and not in the other. *)
Definition obs_eq (st1 st2 : LockManager) : Prop :=
  (∀ key, queue_of st1 key = queue_of st2 key) ∧
  txn_waits_ st1 = txn_waits_ st2 ∧
  ready_txns_ st1 = ready_txns_ st2.

(** A computation respects observational equality when, from two
    observationally equal states, it gives the same result and two
    observationally equal states. *)
Definition respects {A : Type} (m : LM A) : Prop :=
  ∀ st1 st2, obs_eq st1 st2 →
    (m st1).1 = (m st2).1 ∧ obs_eq (m st1).2 (m st2).2.

(** The owners [Status] reports when it is handed an empty vector, as
    [LockManagerB::Release] does. *)
Definition ownersA (st : LockManager) (key : Key) : list Txn :=
  (StatusA key [] st).1.2.

Definition ownersB (st : LockManager) (key : Key) : list Txn :=
  default [] (StatusB key (Some []) st).1.2.

(** Every queued request is a shared or an exclusive one; the lock calls
    create no other. *)
Definition valid_requests (st : LockManager) : Prop :=
  ∀ key r, r ∈ queue_of st key → mode_ r ≠ UNLOCKED.

(** ** The interface of a manager, as a caller sees it *)

Inductive Policy : Type :=
  | PolicyA
  | PolicyB.

Inductive Call : Type :=
  | CallReadLock (txn : Txn) (key : Key)
  | CallWriteLock (txn : Txn) (key : Key)
  | CallRelease (txn : Txn) (key : Key)
  | CallStatus (key : Key) (owners : list Txn).

Inductive Reply : Type :=
  | Granted (granted : bool)
  | Released
  | StatusIs (mode : LockMode) (owners : list Txn).

Definition call (p : Policy) (c : Call) : LM Reply :=
  match p, c with
  | PolicyA, CallReadLock txn key => g ← ReadLockA txn key; mret (Granted g)
  | PolicyA, CallWriteLock txn key => g ← WriteLockA txn key; mret (Granted g)
  | PolicyA, CallRelease txn key => ReleaseA txn key;; mret Released
  | PolicyA, CallStatus key owners =>
      '(mode, owners') ← StatusA key owners;
      mret (StatusIs mode owners')
  | PolicyB, CallReadLock txn key => g ← ReadLockB txn key; mret (Granted g)
  | PolicyB, CallWriteLock txn key => g ← WriteLockB txn key; mret (Granted g)
  | PolicyB, CallRelease txn key => ReleaseB txn key;; mret Released
  | PolicyB, CallStatus key owners =>
      '(mode, owners') ← StatusB key (Some owners);
      mret (StatusIs mode (default [] owners'))
  end.

(** A sequence of calls, issued one after the other. *)
Fixpoint run (p : Policy) (calls : list Call) : LM (list Reply) :=
  match calls with
  | [] => mret []
  | c :: calls =>
      r ← call p c;
      rs ← run p calls;
      mret (r :: rs)
  end.

(** ** The specification's vocabulary *)

(** The walk of the specification over a queue: with running mode
    [running], a request is refused when it is exclusive and the running
    mode is shared; otherwise it is accepted, and the walk ends after an
    accepted exclusive request.  The result is the list of the accepted
    requests. *)
Fixpoint accepted (running : LockMode) (q : list LockRequest)
    : list LockRequest :=
  match q with
  | [] => []
  | r :: rest =>
      match mode_ r, running with
      | EXCLUSIVE, SHARED => []
      | EXCLUSIVE, _ => [r]
      | m, _ => r :: accepted m rest
      end
  end.

(** The mode of the last request of [acc], [seed] when there is none. *)
Definition last_mode (seed : LockMode) (acc : list LockRequest) : LockMode :=
  default seed (mode_ <$> last acc).

(** The mode the walk answers for a queue: [UNLOCKED] for an empty one,
    the mode of the last accepted request otherwise. *)
Definition status_mode (q : list LockRequest) : LockMode :=
  match q with
  | [] => UNLOCKED
  | _ :: _ => last_mode EXCLUSIVE (accepted EXCLUSIVE q)
  end.

(** [removes_first txn q q']: [q'] is [q] without the first request of
    [txn], and [q] itself when [txn] has no request in it. *)
Inductive removes_first (txn : Txn)
    : list LockRequest → list LockRequest → Prop :=
  | removes_none q :
      Forall (λ r, txn_ r ≠ txn) q →
      removes_first txn q q
  | removes_one pre r post :
      Forall (λ r, txn_ r ≠ txn) pre →
      txn_ r = txn →
      removes_first txn (pre ++ r :: post) (pre ++ post).

(** The number of requests of [txn] in a queue. *)
Definition requests_of (txn : Txn) (q : list LockRequest) : nat :=
  length (filter (λ r, txn_ r = txn) q).

(** ** Vocabulary for the invariants of the managers *)

(** The key a call works on. *)
Definition key_of (c : Call) : Key :=
  match c with
  | CallReadLock _ key => key
  | CallWriteLock _ key => key
  | CallRelease _ key => key
  | CallStatus key _ => key
  end.

(** The requests of [txn] that stand behind the front of a queue. *)
Definition waiting_in (txn : Txn) (q : list LockRequest) : nat :=
  requests_of txn (tail q).

(** The requests of [txn] that stand behind the front of their queue, over
    all the keys of the lock table. *)
Definition waiting (txn : Txn) (st : LockManager) : nat :=
  map_fold (λ _ q n, (waiting_in txn q + n)%nat) 0%nat (lock_table_ st).

(** The counter of every transaction is at least the number of its
    requests that stand behind the front of their queue. *)
Definition counters_cover_waiting (st : LockManager) : Prop :=
  ∀ t, Z.of_nat (waiting t st) ≤ wait_entry (txn_waits_ st) t.

(** Every counter stored in [txn_waits_] is at least 1. *)
Definition counters_positive (st : LockManager) : Prop :=
  ∀ t c, txn_waits_ st !! t = Some c → 1 ≤ c.

(** [release_hits_front txn q]: a [Release] of [txn] on the queue [q] finds
    its request at the front, or finds none; it takes no request out from
    behind the front. *)
Definition release_hits_front (txn : Txn) (q : list LockRequest) : Prop :=
  match q with
  | [] => True
  | front :: rest => txn_ front = txn ∨ Forall (λ r, txn_ r ≠ txn) rest
  end.

(** A sequence of calls of policy A, run from [st], in which every
    [Release] hits the front: transactions give up the locks they own, and
    none withdraws a request that still waits. *)
Fixpoint owners_release (calls : list Call) (st : LockManager) : Prop :=
  match calls with
  | [] => True
  | c :: calls =>
      match c with
      | CallRelease txn key => release_hits_front txn (queue_of st key)
      | _ => True
      end ∧
      owners_release calls (call PolicyA c st).2
  end.

(** What one pass of the promotion loop of [LockManagerB::Release] makes of
    the counter of an owner: a counter of 1 is erased, another one loses
    1, a missing one stays missing. *)
Definition promoted_entry (entry : option Z) : option Z :=
  match entry with
  | Some c => if decide (c - 1 = 0) then None else Some (c - 1)
  | None => None
  end.

End LockManager.

Arguments LockRequest Txn : clear implicits.
Arguments LockManager Key Txn {_ _ _ _}.
Arguments LM Key Txn {_ _ _ _} A.
Arguments Call Key Txn : clear implicits.
Arguments Reply Txn : clear implicits.

Section Properties.

Context {Key Txn : Type}.
Context `{Countable Key} `{Countable Txn}.

Implicit Types (st : LockManager Key Txn) (key : Key) (txn : Txn).
Implicit Types (q dq : list (LockRequest Txn)).

Lemma getLockQueue_eq key st :
  _getLockQueue key st =
    (queue_of st key,
     mkLockManager (<[key := queue_of st key]> (lock_table_ st))
                   (txn_waits_ st) (ready_txns_ st)).
Proof.
  unfold _getLockQueue, queue_of.
  destruct (lock_table_ st !! key) as [dq|] eqn:E; simpl; [|done].
  rewrite insert_id by done. by destruct st.
Qed.

Lemma queue_of_insert tbl w r key q k :
  queue_of (mkLockManager (<[key := q]> tbl) w r) k =
    if decide (k = key) then q else queue_of (mkLockManager tbl w r) k.
Proof.
  unfold queue_of; simpl. rewrite lookup_insert.
  repeat case_decide; subst; done.
Qed.

Lemma WriteLockA_eq txn key st :
  WriteLockA txn key st =
    let q := queue_of st key in
    (bool_decide (q = []),
     mkLockManager
       (<[key := q ++ [mkLockRequest EXCLUSIVE txn]]> (lock_table_ st))
       (if bool_decide (q = []) then txn_waits_ st
        else <[txn := wait_entry (txn_waits_ st) txn + 1]> (txn_waits_ st))
       (ready_txns_ st)).
Proof.
  unfold WriteLockA, mbind, LM_bind, mret, LM_ret.
  rewrite getLockQueue_eq. simpl.
  rewrite insert_insert_eq.
  by destruct (bool_decide (queue_of st key = [])).
Qed.

Lemma erase_scan_A_false txn q : (erase_scan_A txn q false).2 = false.
Proof.
  induction q as [|it rest IH]; simpl; [done|].
  case_decide; [done|].
  destruct (erase_scan_A txn rest false) as [rest' b]. done.
Qed.

(** Both managers erase the same request; policy A also learns whether it
    was the one at the front. *)
Lemma erase_scan_A_eq txn q :
  erase_scan_A txn q true =
    (erase_scan_B txn q,
     match q with
     | [] => true
     | it :: _ => bool_decide (txn_ it = txn)
     end).
Proof.
  destruct q as [|it rest]; simpl; [done|].
  case_bool_decide; case_decide; try done.
  pose proof (erase_scan_A_false txn rest) as Hb.
  assert ((erase_scan_A txn rest false).1 = erase_scan_B txn rest) as Hq.
  { clear. generalize false.
    induction rest as [|it rest IH]; intros b; simpl; [done|].
    case_decide; [done|].
    specialize (IH false).
    destruct (erase_scan_A txn rest false) as [rest' b']. simpl in *.
    by rewrite IH. }
  destruct (erase_scan_A txn rest false) as [rest' b]. simpl in *.
  by subst.
Qed.

Lemma ReleaseA_eq txn key st :
  ReleaseA txn key st =
    let q := queue_of st key in
    let q' := erase_scan_B txn q in
    let tbl := <[key := q']> (lock_table_ st) in
    (tt,
     match q, q' with
     | it :: _, next :: _ =>
         if decide (txn_ it = txn) then
           let c := wait_entry (txn_waits_ st) (txn_ next) - 1 in
           if decide (c = 0) then
             mkLockManager tbl (delete (txn_ next) (txn_waits_ st))
                           (ready_txns_ st ++ [txn_ next])
           else
             mkLockManager tbl (<[txn_ next := c]> (txn_waits_ st))
                           (ready_txns_ st)
         else mkLockManager tbl (txn_waits_ st) (ready_txns_ st)
     | _, _ => mkLockManager tbl (txn_waits_ st) (ready_txns_ st)
     end).
Proof.
  unfold ReleaseA, mbind, LM_bind, mret, LM_ret.
  rewrite getLockQueue_eq, erase_scan_A_eq. simpl.
  rewrite insert_insert_eq.
  destruct (queue_of st key) as [|it rest]; simpl; [done|].
  case_bool_decide; case_decide; try done; simpl.
  - destruct rest as [|next rest]; [done|].
    unfold decr_wait; simpl. case_decide; [|done].
    unfold push_ready, erase_wait; simpl. by rewrite delete_insert_eq.
Qed.

Lemma touch_eq key st :
  touch key st =
    mkLockManager (<[key := queue_of st key]> (lock_table_ st))
                  (txn_waits_ st) (ready_txns_ st).
Proof. unfold touch. by rewrite getLockQueue_eq. Qed.

Lemma queue_of_touch key st k : queue_of (touch key st) k = queue_of st k.
Proof.
  rewrite touch_eq, queue_of_insert. case_decide; [by subst|].
  by destruct st.
Qed.

Lemma StatusA_eq key owners st :
  StatusA key owners st =
    (match queue_of st key with
     | [] => (UNLOCKED, owners)
     | front :: _ => (EXCLUSIVE, [txn_ front])
     end, touch key st).
Proof.
  unfold StatusA, mbind, LM_bind, mret, LM_ret.
  rewrite touch_eq, getLockQueue_eq.
  by destruct (queue_of st key).
Qed.

(** *** The loop of [Status] and the walk of the specification *)

Lemma last_mode_cons seed (r : LockRequest Txn) acc :
  last_mode seed (r :: acc) = last_mode (mode_ r) acc.
Proof. unfold last_mode. rewrite last_cons. by destruct (last acc). Qed.

Lemma status_loop_accepted q mode txn_owners :
  status_loop q mode txn_owners =
    (last_mode mode (accepted mode q),
     txn_owners ++ (txn_ <$> accepted mode q)).
Proof.
  revert mode txn_owners.
  induction q as [|r rest IH]; intros mode txn_owners; simpl.
  { by rewrite app_nil_r. }
  destruct (mode_ r) eqn:Er; simpl.
  - rewrite IH, last_mode_cons, Er, <-app_assoc. done.
  - rewrite IH, last_mode_cons, Er, <-app_assoc. done.
  - destruct mode; simpl; rewrite ?app_nil_r; try done;
      unfold last_mode; simpl; by rewrite Er.
Qed.

Lemma StatusB_eq key owners st :
  StatusB key owners st =
    let q := queue_of st key in
    ((status_mode q,
      match q with
      | [] => owners
      | _ :: _ => (λ _, txn_ <$> accepted EXCLUSIVE q) <$> owners
      end), touch key st).
Proof.
  unfold StatusB, mbind, LM_bind, mret, LM_ret.
  rewrite touch_eq, getLockQueue_eq.
  destruct (queue_of st key) as [|r rest] eqn:E; [done|].
  rewrite status_loop_accepted. by destruct owners.
Qed.

Lemma accepted_prefix running q : accepted running q `prefix_of` q.
Proof.
  revert running. induction q as [|r rest IH]; intros running; simpl.
  { done. }
  destruct (mode_ r), running; simpl;
    first [ apply prefix_nil | apply prefix_cons, IH
          | apply prefix_cons, prefix_nil ].
Qed.

Lemma accepted_shared_run q :
  Forall (λ r, mode_ r ≠ UNLOCKED) q →
  Forall (λ r, mode_ r = SHARED) (accepted SHARED q).
Proof.
  induction 1 as [|r rest Hr _ IH]; simpl; [constructor|].
  destruct (mode_ r) eqn:Er; [done| |constructor].
  constructor; [done|]. exact IH.
Qed.

Lemma last_mode_Forall (P : LockMode → Prop) seed acc :
  P seed → Forall (λ r : LockRequest Txn, P (mode_ r)) acc →
  P (last_mode seed acc).
Proof.
  intros Hs Hacc. revert seed Hs.
  induction Hacc as [|r acc Hr _ IH]; intros seed Hs; [done|].
  rewrite last_mode_cons. by apply IH.
Qed.

(** With an exclusive request anywhere in the queue the walk ends on a
    shared or an exclusive mode, whatever the mode it starts from. *)
Lemma last_mode_exclusive_queued running q :
  Exists (λ r, mode_ r = EXCLUSIVE) q →
  last_mode running (accepted running q) ≠ UNLOCKED.
Proof.
  intros Hex. revert running.
  induction q as [|r rest IH]; intros running; [by inversion Hex|].
  simpl. destruct (mode_ r) eqn:Er.
  - rewrite last_mode_cons, Er. apply IH.
    inversion Hex; subst; [congruence|done].
  - rewrite last_mode_cons, Er. apply IH.
    inversion Hex; subst; [congruence|done].
  - destruct running; unfold last_mode; simpl; rewrite ?Er; done.
Qed.

Lemma no_exclusive_loop_spec q :
  no_exclusive_loop q = true ↔ Forall (λ r, mode_ r ≠ EXCLUSIVE) q.
Proof.
  induction q as [|r rest IH]; simpl.
  { split; [constructor|done]. }
  case_bool_decide as Hr.
  - split; [done|]. intros Hall. inversion Hall; subst. done.
  - rewrite IH. split.
    + intros Hall. by constructor.
    + intros Hall. by inversion Hall.
Qed.

(** *** The lock calls of policy B *)

Lemma WriteLockB_eq txn key st :
  WriteLockB txn key st =
    let q := queue_of st key in
    let granted := bool_decide (status_mode q = UNLOCKED) in
    (granted,
     mkLockManager
       (<[key := q ++ [mkLockRequest EXCLUSIVE txn]]> (lock_table_ st))
       (if granted then txn_waits_ st
        else <[txn := wait_entry (txn_waits_ st) txn + 1]> (txn_waits_ st))
       (ready_txns_ st)).
Proof.
  unfold WriteLockB, mbind, LM_bind, mret, LM_ret.
  rewrite StatusB_eq. simpl.
  rewrite getLockQueue_eq, queue_of_touch, touch_eq. simpl.
  rewrite !insert_insert_eq.
  by destruct (bool_decide (status_mode (queue_of st key) = UNLOCKED)).
Qed.

Lemma no_exclusive_loop_app q1 q2 :
  no_exclusive_loop (q1 ++ q2) = no_exclusive_loop q1 && no_exclusive_loop q2.
Proof.
  induction q1 as [|r rest IH]; simpl; [done|].
  by case_bool_decide.
Qed.

Lemma ReadLockB_eq txn key st :
  ReadLockB txn key st =
    let q := queue_of st key in
    let granted :=
      bool_decide (status_mode q = UNLOCKED) || no_exclusive_loop q in
    (granted,
     mkLockManager
       (<[key := q ++ [mkLockRequest SHARED txn]]> (lock_table_ st))
       (if granted then txn_waits_ st
        else <[txn := wait_entry (txn_waits_ st) txn + 1]> (txn_waits_ st))
       (ready_txns_ st)).
Proof.
  unfold ReadLockB, _noExclusiveWaiting, mbind, LM_bind, mret, LM_ret.
  rewrite StatusB_eq. simpl.
  rewrite getLockQueue_eq, queue_of_touch, touch_eq. simpl.
  rewrite !insert_insert_eq.
  destruct (bool_decide (status_mode (queue_of st key) = UNLOCKED)); simpl.
  { done. }
  rewrite getLockQueue_eq. simpl.
  rewrite queue_of_insert, decide_True by done.
  rewrite insert_insert_eq, no_exclusive_loop_app. simpl.
  rewrite andb_true_r.
  by destruct (no_exclusive_loop (queue_of st key)).
Qed.

(** *** The promotion loop of [LockManagerB::Release] *)

Lemma promote_owners_table owners st :
  lock_table_ (promote_owners owners st).2 = lock_table_ st.
Proof.
  revert st. induction owners as [|o owners IH]; intros st; simpl; [done|].
  unfold mbind, LM_bind.
  destruct (promote_owner o st) as [[] st1] eqn:E.
  rewrite IH. unfold promote_owner in E.
  destruct (txn_waits_ st !! o); [|by inversion E].
  case_decide; inversion E; done.
Qed.

(** A counter moves only for a transaction of the list. *)
Lemma promote_owners_other owners st t :
  t ∉ owners →
  txn_waits_ (promote_owners owners st).2 !! t = txn_waits_ st !! t.
Proof.
  revert st. induction owners as [|o owners IH]; intros st Ht; simpl; [done|].
  apply not_elem_of_cons in Ht as [Hne Ht].
  unfold mbind, LM_bind.
  destruct (promote_owner o st) as [[] st1] eqn:E.
  rewrite IH by done. unfold promote_owner in E.
  destruct (txn_waits_ st !! o); [|by inversion E].
  case_decide; inversion E; simpl.
  - rewrite lookup_delete_ne, lookup_insert_ne; done.
  - rewrite lookup_insert_ne; done.
Qed.

Lemma ReleaseB_eq txn key st :
  ReleaseB txn key st =
    let q' := erase_scan_B txn (queue_of st key) in
    promote_owners (txn_ <$> accepted EXCLUSIVE q')
      (mkLockManager (<[key := q']> (lock_table_ st))
                     (txn_waits_ st) (ready_txns_ st)).
Proof.
  unfold ReleaseB, mbind, LM_bind, mret, LM_ret.
  rewrite getLockQueue_eq. simpl.
  rewrite StatusB_eq. simpl.
  rewrite queue_of_insert, decide_True by done.
  rewrite touch_eq. simpl.
  rewrite queue_of_insert, decide_True by done.
  rewrite !insert_insert_eq.
  by destruct (erase_scan_B txn (queue_of st key)).
Qed.

(** ** Policy A: the lock calls *)

(** C7. Under policy A, [WriteLock] appends an exclusive request of [txn]
    to the queue of [key] and answers [true] exactly when that queue was
    empty before; when it answers [false] the wait counter of [txn] goes
    up by one (a missing entry counting as 0), otherwise that counter is
    untouched.  No other queue and no other counter changes, and nothing
    is appended to the ready queue. *)
Theorem WriteLockA_appends_and_counts txn key st :
  let '(granted, st') := WriteLockA txn key st in
  queue_of st' key = queue_of st key ++ [mkLockRequest EXCLUSIVE txn] ∧
  (granted = true ↔ queue_of st key = []) ∧
  txn_waits_ st' !! txn =
    (if granted then txn_waits_ st !! txn
     else Some (wait_entry (txn_waits_ st) txn + 1)) ∧
  (∀ k, k ≠ key → queue_of st' k = queue_of st k) ∧
  (∀ t, t ≠ txn → txn_waits_ st' !! t = txn_waits_ st !! t) ∧
  ready_txns_ st' = ready_txns_ st.
Proof.
  rewrite WriteLockA_eq. cbv zeta.
  repeat split.
  - by rewrite queue_of_insert, decide_True.
  - apply bool_decide_eq_true_1.
  - apply bool_decide_eq_true_2.
  - simpl. case_bool_decide; [done|]. by rewrite lookup_insert_eq.
  - intros k Hk. rewrite queue_of_insert, decide_False by done.
    by destruct st.
  - intros t Ht. simpl. case_bool_decide; [done|].
    by rewrite lookup_insert_ne.
Qed.

(** C8. Under policy A, [ReadLock] is [WriteLock]: the same answer and the
    same state for every transaction, key and state; in particular the
    request it queues is an exclusive one. *)
Theorem ReadLockA_is_WriteLockA txn key st :
  ReadLockA txn key st = WriteLockA txn key st ∧
  queue_of (ReadLockA txn key st).2 key =
    queue_of st key ++ [mkLockRequest EXCLUSIVE txn].
Proof.
  split; [reflexivity|].
  unfold ReadLockA. rewrite WriteLockA_eq. simpl.
  by rewrite queue_of_insert, decide_True.
Qed.

(** ** Erasing the first request of a transaction *)

Lemma erase_scan_B_cons txn it rest :
  erase_scan_B txn (it :: rest) =
    if decide (txn_ it = txn) then rest else it :: erase_scan_B txn rest.
Proof. reflexivity. Qed.

Lemma erase_scan_B_removes_first txn q :
  removes_first txn q (erase_scan_B txn q).
Proof.
  induction q as [|it rest IH].
  { by constructor. }
  rewrite erase_scan_B_cons. case_decide as Hit.
  - by apply (removes_one txn [] it rest).
  - remember (erase_scan_B txn rest) as q' eqn:Eq'. clear Eq'.
    destruct IH as [q Hall | pre r post Hpre Hr].
    + apply removes_none. by constructor.
    + apply (removes_one txn (it :: pre) r post); [|done].
      by constructor.
Qed.

Lemma erase_scan_B_absent txn q :
  Forall (λ r, txn_ r ≠ txn) q → erase_scan_B txn q = q.
Proof.
  induction 1 as [|it rest Hit _ IH]; [done|].
  rewrite erase_scan_B_cons, decide_False by done. by rewrite IH.
Qed.

(** ** Policy A: [Release] *)

Lemma ReleaseA_queue txn key st k :
  queue_of (ReleaseA txn key st).2 k =
    if decide (k = key) then erase_scan_B txn (queue_of st key)
    else queue_of st k.
Proof.
  rewrite ReleaseA_eq. cbv zeta. simpl snd.
  assert (∀ w r,
    queue_of (mkLockManager
      (<[key := erase_scan_B txn (queue_of st key)]> (lock_table_ st)) w r) k =
    if decide (k = key) then erase_scan_B txn (queue_of st key)
    else queue_of st k) as Hq.
  { intros w r. rewrite queue_of_insert. by case_decide. }
  destruct (queue_of st key) as [|it rest] eqn:Eq; [apply Hq|].
  destruct (erase_scan_B txn (it :: rest)) as [|next rest'] eqn:Eq';
    [apply Hq|].
  repeat case_decide; apply Hq.
Qed.

(** Without a following request at the front to hand the lock to, the
    counters and the ready queue stay as they are. *)
Lemma ReleaseA_no_promotion txn key st :
  match queue_of st key with
  | it :: _ :: _ => txn_ it ≠ txn
  | _ => True
  end →
  txn_waits_ (ReleaseA txn key st).2 = txn_waits_ st ∧
  ready_txns_ (ReleaseA txn key st).2 = ready_txns_ st.
Proof.
  rewrite ReleaseA_eq. cbv zeta. simpl snd.
  destruct (queue_of st key) as [|it rest] eqn:Eq; [done|].
  rewrite erase_scan_B_cons.
  destruct rest as [|next rest].
  { intros _. by case_decide. }
  intros Hne. rewrite !decide_False by done. done.
Qed.

(** C6. Under policy A, [Release] takes the first request of [txn] out of
    the queue of [key] and leaves the other queues alone.  When that
    request was the front one and a request follows it, the counter of the
    transaction now at the front goes down by one; if it reaches zero the
    transaction is appended to the ready queue and its counter is erased.
    In every other case (no request of [txn], a request of [txn] behind
    the front, a lone owner) neither the counters nor the ready queue
    change.  After [WriteLock] calls of transactions T1, T2 and T3 (T2 and
    T3 distinct) on one key of a fresh manager, releasing T1 makes T2
    ready, and not T3, which keeps waiting with a count of 1. *)
Theorem ReleaseA_hands_over_to_next :
  (∀ txn key st,
     let st' := (ReleaseA txn key st).2 in
     removes_first txn (queue_of st key) (queue_of st' key) ∧
     (∀ k, k ≠ key → queue_of st' k = queue_of st k) ∧
     (∀ it next rest,
        queue_of st key = it :: next :: rest → txn_ it = txn →
        let c := wait_entry (txn_waits_ st) (txn_ next) - 1 in
        queue_of st' key = next :: rest ∧
        if decide (c = 0) then
          ready_txns_ st' = ready_txns_ st ++ [txn_ next] ∧
          txn_waits_ st' = delete (txn_ next) (txn_waits_ st)
        else
          ready_txns_ st' = ready_txns_ st ∧
          txn_waits_ st' = <[txn_ next := c]> (txn_waits_ st)) ∧
     (match queue_of st key with
      | it :: _ :: _ => txn_ it ≠ txn
      | _ => True
      end →
      txn_waits_ st' = txn_waits_ st ∧ ready_txns_ st' = ready_txns_ st)) ∧
  (∀ key (T1 T2 T3 : Txn),
     T2 ≠ T3 →
     let '(g1, s1) := WriteLockA T1 key new_manager in
     let '(g2, s2) := WriteLockA T2 key s1 in
     let '(g3, s3) := WriteLockA T3 key s2 in
     let s4 := (ReleaseA T1 key s3).2 in
     (g1, g2, g3) = (true, false, false) ∧
     txn_waits_ s3 !! T2 = Some 1 ∧
     txn_waits_ s3 !! T3 = Some 1 ∧
     queue_of s4 key =
       [mkLockRequest EXCLUSIVE T2; mkLockRequest EXCLUSIVE T3] ∧
     ready_txns_ s4 = [T2] ∧
     txn_waits_ s4 !! T2 = None ∧
     txn_waits_ s4 !! T3 = Some 1).
Proof.
  split.
  - intros txn key st st'. subst st'.
    split; [|split; [|split]].
    + rewrite ReleaseA_queue, decide_True by done.
      apply erase_scan_B_removes_first.
    + intros k Hk. by rewrite ReleaseA_queue, decide_False.
    + intros it next rest Hq Hit c.
      split.
      { rewrite ReleaseA_queue, decide_True by done.
        rewrite Hq, erase_scan_B_cons, decide_True by done. done. }
      rewrite ReleaseA_eq. cbv zeta. simpl snd.
      rewrite Hq, erase_scan_B_cons.
      destruct (decide (txn_ it = txn)) as [_|?]; [|done].
      subst c. by case_decide.
    + apply ReleaseA_no_promotion.
  - intros key T1 T2 T3 H23.
    assert (queue_of (new_manager (Key:=Key) (Txn:=Txn)) key = []) as Hq0
      by done.
    rewrite WriteLockA_eq, Hq0. cbv beta iota zeta.
    rewrite WriteLockA_eq, queue_of_insert, decide_True by done.
    cbv beta iota zeta.
    rewrite WriteLockA_eq, queue_of_insert, decide_True by done.
    cbv beta iota zeta.
    rewrite ReleaseA_eq, queue_of_insert, decide_True by done.
    cbv beta iota zeta. simpl.
    destruct (decide (T1 = T1)) as [_|?]; [|done].
    unfold wait_entry. simpl.
    rewrite lookup_empty. simpl.
    rewrite (lookup_insert_ne _ T2 T3) by done.
    rewrite lookup_empty. simpl.
    rewrite (lookup_insert_ne _ T3 T2) by done.
    rewrite !lookup_insert_eq. simpl.
    rewrite queue_of_insert, decide_True by done.
    rewrite lookup_delete_eq, lookup_delete_ne by done.
    rewrite lookup_insert_eq. done.
Qed.

(** ** Policy B: [Status] *)

(** On a queue of shared and exclusive requests an exclusive answer names
    exactly one accepted request. *)
Lemma exclusive_walk_single q :
  Forall (λ r, mode_ r ≠ UNLOCKED) q →
  last_mode EXCLUSIVE (accepted EXCLUSIVE q) = EXCLUSIVE →
  length (accepted EXCLUSIVE q) = 1%nat ∨ q = [].
Proof.
  intros Hvalid. destruct Hvalid as [|r rest Hr Hrest]; [by right|].
  simpl. destruct (mode_ r) eqn:Er; [done| |by left].
  rewrite last_mode_cons, Er. intros Hlast. exfalso.
  pose proof (accepted_shared_run rest Hrest) as Hrun.
  assert (last_mode SHARED (accepted SHARED rest) = SHARED) as Hs.
  { by apply (last_mode_Forall (λ m, m = SHARED)). }
  congruence.
Qed.

(** C4. Under policy B, on a non-empty queue [Status] reports the prefix
    accepted by the walk of the specification, started from the mode
    [EXCLUSIVE]: the owners are the transactions of the accepted requests,
    in order, and the mode is that of the last accepted request (with a
    null [owners] only the mode is reported).  The accepted requests are a
    non-empty prefix of the queue.  When the answer is [EXCLUSIVE] and the
    queue holds shared and exclusive requests only, exactly one owner is
    reported; policy A reports exactly one owner with every [EXCLUSIVE]
    answer. *)
Theorem Status_reports_accepted_prefix key owners st :
  (queue_of st key ≠ [] →
   let acc := accepted EXCLUSIVE (queue_of st key) in
   (StatusB key (Some owners) st).1 =
     (last_mode EXCLUSIVE acc, Some (txn_ <$> acc)) ∧
   (StatusB key None st).1 = (last_mode EXCLUSIVE acc, None) ∧
   acc `prefix_of` queue_of st key ∧
   acc ≠ []) ∧
  (Forall (λ r, mode_ r ≠ UNLOCKED) (queue_of st key) →
   ∀ owners',
     (StatusB key (Some owners) st).1 = (EXCLUSIVE, Some owners') →
     length owners' = 1%nat) ∧
  (∀ owners',
     (StatusA key owners st).1 = (EXCLUSIVE, owners') →
     length owners' = 1%nat).
Proof.
  split; [|split].
  - intros Hne acc. subst acc. rewrite !StatusB_eq. cbv zeta. simpl.
    destruct (queue_of st key) as [|r rest] eqn:Eq; [done|].
    repeat split; [apply accepted_prefix|].
    simpl. by destruct (mode_ r).
  - intros Hvalid owners'. rewrite StatusB_eq. cbv zeta. simpl.
    destruct (queue_of st key) as [|r rest] eqn:Eq; [done|].
    unfold status_mode. intros [= Hmode <-].
    rewrite length_fmap.
    by destruct (exclusive_walk_single _ Hvalid Hmode).
  - intros owners'. rewrite StatusA_eq. simpl.
    destruct (queue_of st key) as [|r rest]; [done|].
    by intros [= <-].
Qed.

(** ** Policy B: [ReadLock] *)

(** C3. Under policy B, [ReadLock] appends a shared request of [txn] to
    the queue of [key]; with [status] the answer of [Status] before the
    insertion, the lock is granted exactly when [status] is [UNLOCKED] or
    no exclusive request is anywhere in the queue (before the insertion
    or, equivalently, after it, where the source looks), and the wait
    counter of [txn] goes up by one exactly when the lock is not granted.
    In particular, with an exclusive request queued on [key] the answer is
    [false], whatever the owners are. *)
Theorem ReadLockB_admission txn key st :
  let status := (StatusB key None st).1.1 in
  let '(granted, st') := ReadLockB txn key st in
  queue_of st' key = queue_of st key ++ [mkLockRequest SHARED txn] ∧
  (∀ k, k ≠ key → queue_of st' k = queue_of st k) ∧
  (granted = true ↔
     status = UNLOCKED ∨
     Forall (λ r, mode_ r ≠ EXCLUSIVE) (queue_of st key)) ∧
  (granted = true ↔
     status = UNLOCKED ∨
     Forall (λ r, mode_ r ≠ EXCLUSIVE) (queue_of st' key)) ∧
  txn_waits_ st' =
    (if granted then txn_waits_ st
     else <[txn := wait_entry (txn_waits_ st) txn + 1]> (txn_waits_ st)) ∧
  ready_txns_ st' = ready_txns_ st ∧
  (Exists (λ r, mode_ r = EXCLUSIVE) (queue_of st key) → granted = false).
Proof.
  rewrite StatusB_eq, ReadLockB_eq. cbv zeta. simpl.
  set (q := queue_of st key).
  assert (bool_decide (status_mode q = UNLOCKED) || no_exclusive_loop q = true
          ↔ status_mode q = UNLOCKED ∨ Forall (λ r, mode_ r ≠ EXCLUSIVE) q)
    as Hgranted.
  { rewrite orb_true_iff, bool_decide_eq_true, no_exclusive_loop_spec. done. }
  assert (queue_of
    (mkLockManager (<[key := q ++ [mkLockRequest SHARED txn]]> (lock_table_ st))
       (if bool_decide (status_mode q = UNLOCKED) || no_exclusive_loop q
        then txn_waits_ st
        else <[txn := wait_entry (txn_waits_ st) txn + 1]> (txn_waits_ st))
       (ready_txns_ st)) key = q ++ [mkLockRequest SHARED txn]) as Hq'.
  { by rewrite queue_of_insert, decide_True. }
  split; [done|]. split.
  { intros k Hk. rewrite queue_of_insert, decide_False by done.
    by destruct st. }
  split; [done|]. split.
  { rewrite Hq', Hgranted, Forall_app, Forall_singleton. simpl.
    split; [|tauto]. intros [?|?]; [by left|by right]. }
  split; [done|]. split; [done|].
  intros Hex. apply not_true_is_false. rewrite Hgranted.
  intros [Hu|Hall].
  - destruct q as [|r rest] eqn:Eq; [by inversion Hex|].
    by apply (last_mode_exclusive_queued EXCLUSIVE (r :: rest)).
  - apply Exists_exists in Hex as (r & Hin & Hr).
    rewrite Forall_forall in Hall. by apply (Hall r).
Qed.

(** ** Lazily created queues are not observable *)

Lemma obs_eq_touch key st : obs_eq (touch key st) st.
Proof.
  split; [|by rewrite touch_eq].
  intros k. apply queue_of_touch.
Qed.

Lemma respects_ret {A} (x : A) : respects (Key:=Key) (Txn:=Txn) (mret x).
Proof. intros st1 st2 Heq. done. Qed.

Lemma respects_bind {A B} (m : LM Key Txn A) (f : A → LM Key Txn B) :
  respects m → (∀ x, respects (f x)) → respects (m ≫= f).
Proof.
  intros Hm Hf st1 st2 Heq. unfold mbind, LM_bind.
  destruct (Hm st1 st2 Heq) as [Hres Hst].
  destruct (m st1) as [x1 st1'], (m st2) as [x2 st2']. simpl in *. subst x2.
  by apply Hf.
Qed.

Lemma respects_getLockQueue key :
  respects (_getLockQueue (Txn:=Txn) key).
Proof.
  intros st1 st2 (Hq & Hw & Hr). rewrite !getLockQueue_eq. simpl.
  split; [apply Hq|]. split; [|done].
  intros k. rewrite !queue_of_insert. case_decide; [apply Hq|].
  specialize (Hq k). by destruct st1, st2.
Qed.

Lemma respects_store_queue key dq : respects (store_queue key dq).
Proof.
  intros st1 st2 (Hq & Hw & Hr). split; [done|]. split; [|done].
  intros k. unfold store_queue. simpl. rewrite !queue_of_insert.
  case_decide; [done|]. specialize (Hq k). by destruct st1, st2.
Qed.

Ltac respects_member :=
  intros [tbl1 w1 r1] [tbl2 w2 r2] (Hq & Hw & Hr);
  simpl in Hw, Hr; subst;
  split; [done|]; split; [exact Hq|done].

Lemma respects_incr_wait txn : respects (incr_wait (Key:=Key) txn).
Proof. respects_member. Qed.

Lemma respects_decr_wait txn : respects (decr_wait (Key:=Key) txn).
Proof. respects_member. Qed.

Lemma respects_erase_wait txn : respects (erase_wait (Key:=Key) txn).
Proof. respects_member. Qed.

Lemma respects_push_ready txn : respects (push_ready (Key:=Key) txn).
Proof. respects_member. Qed.

Lemma respects_promote_owner (owner : Txn) :
  respects (promote_owner (Key:=Key) owner).
Proof.
  intros [tbl1 w1 r1] [tbl2 w2 r2] (Hq & Hw & Hr).
  simpl in Hw, Hr; subst. unfold promote_owner. simpl.
  destruct (w2 !! owner) as [c|]; [|done].
  case_decide; (split; [done|]; split; [exact Hq|done]).
Qed.

Lemma respects_promote_owners (owners : list Txn) :
  respects (promote_owners (Key:=Key) owners).
Proof.
  induction owners as [|o owners IH]; simpl.
  - apply respects_ret.
  - apply respects_bind; [apply respects_promote_owner|done].
Qed.

Create HintDb respects discriminated.

#[local] Hint Resolve respects_ret respects_getLockQueue
  respects_store_queue respects_incr_wait respects_decr_wait
  respects_erase_wait respects_push_ready respects_promote_owners
  : respects.

Ltac respects_step :=
  first
    [ apply respects_bind; [|intros ?]
    | solve [auto with respects]
    | match goal with
      | |- respects (match ?x with _ => _ end) => destruct x
      | |- respects (let '(_, _) := ?x in _) => destruct x
      | |- respects (if ?b then _ else _) => destruct b
      end ].

Lemma respects_WriteLockA txn key : respects (WriteLockA txn key).
Proof. unfold WriteLockA. repeat respects_step. Qed.

Lemma respects_ReleaseA txn key : respects (ReleaseA txn key).
Proof. unfold ReleaseA. repeat respects_step. Qed.

Lemma respects_StatusA key (owners : list Txn) :
  respects (StatusA key owners).
Proof. unfold StatusA. repeat respects_step. Qed.

Lemma respects_StatusB key (owners : option (list Txn)) :
  respects (StatusB key owners).
Proof. unfold StatusB. repeat respects_step. Qed.

Lemma respects_noExclusiveWaiting key :
  respects (_noExclusiveWaiting (Txn:=Txn) key).
Proof. unfold _noExclusiveWaiting. repeat respects_step. Qed.

Lemma respects_WriteLockB txn key : respects (WriteLockB txn key).
Proof.
  unfold WriteLockB.
  apply respects_bind; [apply respects_StatusB|intros [status o]].
  repeat respects_step.
Qed.

Lemma respects_ReadLockB txn key : respects (ReadLockB txn key).
Proof.
  unfold ReadLockB.
  apply respects_bind; [apply respects_StatusB|intros [status o]].
  pose proof (respects_noExclusiveWaiting key).
  repeat respects_step.
Qed.

Lemma respects_ReleaseB txn key : respects (ReleaseB txn key).
Proof.
  unfold ReleaseB.
  apply respects_bind; [apply respects_getLockQueue|intros queue].
  apply respects_bind; [apply respects_store_queue|intros _].
  apply respects_bind; [apply respects_StatusB|intros [mode o]].
  apply respects_promote_owners.
Qed.

Lemma respects_call p (c : Call Key Txn) : respects (call p c).
Proof.
  destruct p, c; simpl; unfold ReadLockA.
  all: apply respects_bind;
    [ first [ apply respects_WriteLockA | apply respects_ReleaseA
            | apply respects_StatusA | apply respects_WriteLockB
            | apply respects_ReadLockB | apply respects_ReleaseB
            | apply respects_StatusB ]
    | intros x; try destruct x; apply respects_ret ].
Qed.

Lemma respects_run p (calls : list (Call Key Txn)) : respects (run p calls).
Proof.
  induction calls as [|c calls IH]; simpl.
  - apply respects_ret.
  - apply respects_bind; [apply respects_call|intros r].
    apply respects_bind; [done|intros rs]. apply respects_ret.
Qed.

(** C9. [Status] is observably pure under both policies.  Its whole effect
    on the state is that of [_getLockQueue]: every queue keeps its
    contents and order, the wait counters and the ready queue are
    untouched, and the lock table changes only by the empty deque created
    for a key seen for the first time.  That deque is not observable: any
    sequence of calls issued afterwards gives the same replies, and a
    state with the same queues, counters and ready queue, as it would have
    given without the [Status] call. *)
Theorem Status_is_observably_pure
    key (vec : list Txn) (ptr : option (list Txn)) st :
  (StatusA key vec st).2 = touch key st ∧
  (StatusB key ptr st).2 = touch key st ∧
  let st' := touch key st in
  (∀ k, queue_of st' k = queue_of st k) ∧
  txn_waits_ st' = txn_waits_ st ∧
  ready_txns_ st' = ready_txns_ st ∧
  lock_table_ st' =
    match lock_table_ st !! key with
    | Some _ => lock_table_ st
    | None => <[key := []]> (lock_table_ st)
    end ∧
  ∀ p calls,
    (run p calls st').1 = (run p calls st).1 ∧
    obs_eq (run p calls st').2 (run p calls st).2.
Proof.
  split; [by rewrite StatusA_eq|]. split; [by rewrite StatusB_eq|].
  cbv zeta. split; [intros k; apply queue_of_touch|].
  split; [by rewrite touch_eq|]. split; [by rewrite touch_eq|].
  split.
  - unfold touch, _getLockQueue.
    by destruct (lock_table_ st !! key).
  - intros p calls. apply respects_run, obs_eq_touch.
Qed.

(** ** [Release] and the counter of the releasing transaction *)

Lemma requests_of_cons txn (it : LockRequest Txn) rest :
  requests_of txn (it :: rest) =
    if decide (txn_ it = txn) then S (requests_of txn rest)
    else requests_of txn rest.
Proof.
  unfold requests_of. rewrite filter_cons. by case_decide.
Qed.

Lemma requests_of_none txn q :
  requests_of txn q = 0%nat → Forall (λ r, txn_ r ≠ txn) q.
Proof.
  induction q as [|it rest IH]; [constructor|].
  rewrite requests_of_cons. case_decide; [done|].
  intros Hrest. constructor; [done|]. by apply IH.
Qed.

Lemma erase_scan_B_last_request txn q :
  (requests_of txn q ≤ 1)%nat →
  Forall (λ r, txn_ r ≠ txn) (erase_scan_B txn q).
Proof.
  induction q as [|it rest IH]; [constructor|].
  rewrite requests_of_cons, erase_scan_B_cons. case_decide.
  - intros Hle. apply requests_of_none. lia.
  - intros Hle. constructor; [done|]. by apply IH.
Qed.

Lemma accepted_owner_queued running q t :
  t ∈ txn_ <$> accepted running q → t ∈ txn_ <$> q.
Proof.
  destruct (accepted_prefix running q) as [rest Hq].
  intros Ht. rewrite Hq, fmap_app. apply elem_of_app. by left.
Qed.

Lemma ownersB_eq st key :
  ownersB st key = txn_ <$> accepted EXCLUSIVE (queue_of st key).
Proof.
  unfold ownersB. rewrite StatusB_eq. cbv zeta. simpl.
  by destruct (queue_of st key).
Qed.

Lemma ReleaseB_queue txn key st k :
  queue_of (ReleaseB txn key st).2 k =
    if decide (k = key) then erase_scan_B txn (queue_of st key)
    else queue_of st k.
Proof.
  rewrite ReleaseB_eq. cbv zeta. unfold queue_of at 1.
  rewrite promote_owners_table. simpl. rewrite lookup_insert.
  repeat case_decide; subst; done.
Qed.

Lemma ownersA_eq st key :
  ownersA st key =
    match queue_of st key with
    | [] => []
    | front :: _ => [txn_ front]
    end.
Proof.
  unfold ownersA. rewrite StatusA_eq. simpl.
  by destruct (queue_of st key).
Qed.

(** [Release] moves the counters of the owners it leaves behind, and no
    other. *)
Lemma ReleaseA_waits_frame txn key st t :
  t ∉ ownersA (ReleaseA txn key st).2 key →
  txn_waits_ (ReleaseA txn key st).2 !! t = txn_waits_ st !! t.
Proof.
  rewrite ownersA_eq, ReleaseA_queue, decide_True by done.
  rewrite ReleaseA_eq. cbv zeta. simpl snd.
  destruct (queue_of st key) as [|it rest]; [done|].
  destruct (erase_scan_B txn (it :: rest)) as [|next rest']; [done|].
  intros Ht%not_elem_of_cons. destruct Ht as [Ht _].
  repeat case_decide; simpl; try done.
  - by rewrite lookup_delete_ne.
  - by rewrite lookup_insert_ne.
Qed.

Lemma ReleaseB_waits_frame txn key st t :
  t ∉ ownersB (ReleaseB txn key st).2 key →
  txn_waits_ (ReleaseB txn key st).2 !! t = txn_waits_ st !! t.
Proof.
  rewrite ownersB_eq, ReleaseB_queue, decide_True by done.
  rewrite ReleaseB_eq. cbv zeta. intros Ht.
  by rewrite promote_owners_other.
Qed.

(** With at most one request of [txn] in the queue of [key], as the data
    model has it, [Release txn key] takes that request out (if any) and,
    under both policies, leaves the wait counter entry of [txn] exactly as
    it was.  Under policy A a counter that the call changes belongs to
    another transaction, which did not own [key] before the call and owns
    it after.  Under policy B a counter that the call changes belongs to
    an owner of [key] after the call, a new one or not. *)
Lemma Release_spares_own_counter txn key st :
  (requests_of txn (queue_of st key) ≤ 1)%nat →
  let stA := (ReleaseA txn key st).2 in
  let stB := (ReleaseB txn key st).2 in
  (removes_first txn (queue_of st key) (queue_of stA key) ∧
   txn_waits_ stA !! txn = txn_waits_ st !! txn ∧
   ∀ t, txn_waits_ stA !! t ≠ txn_waits_ st !! t →
        t ≠ txn ∧ (t ∉ ownersA st key) ∧ (t ∈ ownersA stA key)) ∧
  (removes_first txn (queue_of st key) (queue_of stB key) ∧
   txn_waits_ stB !! txn = txn_waits_ st !! txn ∧
   ∀ t, txn_waits_ stB !! t ≠ txn_waits_ st !! t → t ∈ ownersB stB key).
Proof.
  intros Hone stA stB. subst stA stB.
  pose proof (erase_scan_B_last_request txn _ Hone) as Hgone.
  assert (txn_waits_ (ReleaseA txn key st).2 !! txn = txn_waits_ st !! txn)
    as HownA.
  { apply ReleaseA_waits_frame.
    rewrite ownersA_eq, ReleaseA_queue, decide_True by done.
    destruct (erase_scan_B txn (queue_of st key)) as [|front rest'];
      [apply not_elem_of_nil|].
    inversion Hgone; subst.
    intros ->%list_elem_of_singleton. done. }
  split; (split; [|split]).
  - rewrite ReleaseA_queue, decide_True by done.
    apply erase_scan_B_removes_first.
  - exact HownA.
  - intros t Ht.
    assert (t ≠ txn) as Hne by (intros ->; by apply Ht).
    split; [done|]. split.
    + rewrite ownersA_eq.
      destruct (queue_of st key) as [|it rest] eqn:Eq;
        [apply not_elem_of_nil|].
      intros Hin%list_elem_of_singleton. apply Ht.
      destruct (ReleaseA_no_promotion txn key st) as [Hsame _];
        [|by rewrite Hsame].
      rewrite Eq. destruct rest; [done|]. congruence.
    + destruct (decide (t ∈ ownersA (ReleaseA txn key st).2 key)); [done|].
      by rewrite ReleaseA_waits_frame in Ht.
  - rewrite ReleaseB_queue, decide_True by done.
    apply erase_scan_B_removes_first.
  - apply ReleaseB_waits_frame.
    rewrite ownersB_eq, ReleaseB_queue, decide_True by done.
    intros Hin%accepted_owner_queued.
    apply list_elem_of_fmap in Hin as (r & Hr & Hin).
    rewrite Forall_forall in Hgone. by apply (Hgone r).
  - intros t Ht.
    destruct (decide (t ∈ ownersB (ReleaseB txn key st).2 key)); [done|].
    by rewrite ReleaseB_waits_frame in Ht.
Qed.

(** ** Only shared and exclusive requests are ever queued *)

Lemma valid_requests_new :
  valid_requests (new_manager (Key:=Key) (Txn:=Txn)).
Proof.
  intros key r. unfold queue_of. simpl. rewrite lookup_empty. simpl.
  by intros ?%not_elem_of_nil.
Qed.

Lemma erase_scan_B_sublist txn q r : r ∈ erase_scan_B txn q → r ∈ q.
Proof.
  induction q as [|it rest IH]; [done|].
  rewrite erase_scan_B_cons. case_decide.
  - intros Hr. by right.
  - intros [->|Hr]%elem_of_cons; [by left|]. right. by apply IH.
Qed.

Lemma valid_requests_append key (rq : LockRequest Txn) tbl w r w' r' :
  mode_ rq ≠ UNLOCKED →
  valid_requests (mkLockManager tbl w r) →
  valid_requests
    (mkLockManager
       (<[key := queue_of (mkLockManager tbl w r) key ++ [rq]]> tbl) w' r').
Proof.
  intros Hrq Hvalid k x. rewrite queue_of_insert. case_decide.
  - intros [Hx| ->%list_elem_of_singleton]%elem_of_app; [|done].
    by apply (Hvalid key).
  - apply (Hvalid k).
Qed.

Lemma valid_requests_obs st1 st2 :
  obs_eq st1 st2 → valid_requests st2 → valid_requests st1.
Proof. intros [Hq _] Hvalid k x. rewrite Hq. apply Hvalid. Qed.

(** Every call keeps the queues free of requests of another mode. *)
Lemma call_valid_requests p (c : Call Key Txn) st :
  valid_requests st → valid_requests (call p c st).2.
Proof.
  intros Hvalid.
  destruct p, c as [txn key|txn key|txn key|key owners]; simpl;
    unfold ReadLockA, mbind, LM_bind, mret, LM_ret.
  - rewrite WriteLockA_eq. destruct st. by apply valid_requests_append.
  - rewrite WriteLockA_eq. destruct st. by apply valid_requests_append.
  - pose proof (ReleaseA_queue txn key st) as Hq.
    destruct (ReleaseA txn key st) as [[] st']. simpl in *.
    intros k x. rewrite Hq. case_decide.
    + intros Hx%erase_scan_B_sublist. by apply (Hvalid key).
    + apply Hvalid.
  - rewrite StatusA_eq.
    destruct (queue_of st key); simpl;
      apply (valid_requests_obs _ st); auto using obs_eq_touch.
  - rewrite ReadLockB_eq. destruct st. by apply valid_requests_append.
  - rewrite WriteLockB_eq. destruct st. by apply valid_requests_append.
  - pose proof (ReleaseB_queue txn key st) as Hq.
    destruct (ReleaseB txn key st) as [[] st']. simpl in *.
    intros k x. rewrite Hq. case_decide.
    + intros Hx%erase_scan_B_sublist. by apply (Hvalid key).
    + apply Hvalid.
  - rewrite StatusB_eq. cbv zeta. simpl.
    apply (valid_requests_obs _ st); auto using obs_eq_touch.
Qed.

Lemma run_valid_requests p (calls : list (Call Key Txn)) st :
  valid_requests st → valid_requests (run p calls st).2.
Proof.
  revert st. induction calls as [|c calls IH]; intros st Hvalid; [done|].
  simpl. unfold mbind, LM_bind, mret, LM_ret.
  pose proof (call_valid_requests p c st Hvalid) as Hc.
  destruct (call p c st) as [r st1]. simpl in Hc.
  specialize (IH st1 Hc). by destruct (run p calls st1).
Qed.

(** In particular every state a manager reaches from its construction
    holds shared and exclusive requests only. *)
Lemma reachable_valid_requests p (calls : list (Call Key Txn)) :
  valid_requests (run p calls new_manager).2.
Proof. apply run_valid_requests, valid_requests_new. Qed.

(** ** A run of policy B on one key *)

Ltac map_simpl :=
  repeat first
    [ rewrite insert_insert_eq | rewrite lookup_insert_eq
    | rewrite lookup_empty | rewrite lookup_delete_eq
    | rewrite lookup_insert_ne by done
    | rewrite lookup_delete_ne by done ];
  simpl.

Ltac lock_step lem :=
  rewrite lem, queue_of_insert, decide_True by done;
  cbv beta iota zeta.

Ltac release_step :=
  rewrite ReleaseB_eq, queue_of_insert, decide_True by done;
  cbv beta iota zeta;
  rewrite !erase_scan_B_cons;
  repeat first
    [ rewrite decide_True by done | rewrite decide_False by done ];
  simpl;
  unfold promote_owner, push_ready, erase_wait, mbind, LM_bind, mret, LM_ret;
  simpl; map_simpl.

(** C5. Under policy B, on a fresh manager and one key, with four distinct
    transactions: [ReadLock T1] and [ReadLock T2] are granted, [WriteLock
    T3] and then [ReadLock T4] are not, and leave T3 and T4 with a wait
    count of 1 each.  [Release T1] promotes nobody and leaves T2 as the
    owner; [Release T2] makes T3 the owner and appends it to the ready
    queue; [Release T3] makes T4 the owner and appends it to the ready
    queue. *)
Theorem policy_B_readers_then_writer key (T1 T2 T3 T4 : Txn) :
  NoDup [T1; T2; T3; T4] →
  let '(g1, s1) := ReadLockB T1 key new_manager in
  let '(g2, s2) := ReadLockB T2 key s1 in
  let '(g3, s3) := WriteLockB T3 key s2 in
  let '(g4, s4) := ReadLockB T4 key s3 in
  let s5 := (ReleaseB T1 key s4).2 in
  let s6 := (ReleaseB T2 key s5).2 in
  let s7 := (ReleaseB T3 key s6).2 in
  (g1, g2, g3, g4) = (true, true, false, false) ∧
  txn_waits_ s3 !! T3 = Some 1 ∧
  txn_waits_ s4 !! T3 = Some 1 ∧
  txn_waits_ s4 !! T4 = Some 1 ∧
  ready_txns_ s4 = [] ∧
  (ready_txns_ s5 = [] ∧ txn_waits_ s5 = txn_waits_ s4 ∧
   ownersB s5 key = [T2]) ∧
  (ready_txns_ s6 = [T3] ∧ txn_waits_ s6 !! T3 = None ∧
   ownersB s6 key = [T3]) ∧
  (ready_txns_ s7 = [T3; T4] ∧ txn_waits_ s7 !! T4 = None ∧
   ownersB s7 key = [T4]).
Proof.
  intros Hnd.
  assert (T1 ≠ T2 ∧ T1 ≠ T3 ∧ T1 ≠ T4 ∧ T2 ≠ T3 ∧ T2 ≠ T4 ∧ T3 ≠ T4)
    as (H12 & H13 & H14 & H23 & H24 & H34).
  { repeat match goal with
           | Hd : NoDup (_ :: _) |- _ => apply NoDup_cons in Hd as [? ?]
           end.
    repeat match goal with
           | Hn : _ ∉ _ :: _ |- _ => apply not_elem_of_cons in Hn as [? ?]
           end.
    done. }
  assert (queue_of (new_manager (Key:=Key) (Txn:=Txn)) key = []) as Hq0
    by done.
  rewrite ReadLockB_eq, Hq0. cbv beta iota zeta.
  lock_step ReadLockB_eq. lock_step WriteLockB_eq. lock_step ReadLockB_eq.
  unfold wait_entry. map_simpl.
  release_step. release_step. release_step.
  rewrite !ownersB_eq.
  repeat (rewrite queue_of_insert, decide_True by done). simpl.
  map_simpl. done.
Qed.

(** ** What is appended to the ready queue *)

Lemma promote_owner_absent (owner : Txn) st t :
  txn_waits_ st !! t = None →
  txn_waits_ (promote_owner owner st).2 !! t = None.
Proof.
  intros Ht. unfold promote_owner.
  destruct (txn_waits_ st !! owner) as [c|] eqn:Eo; [|done].
  assert (owner ≠ t) as Hne by congruence.
  case_decide; simpl.
  - by rewrite lookup_delete_ne, lookup_insert_ne.
  - by rewrite lookup_insert_ne.
Qed.

Lemma promote_owners_absent (owners : list Txn) st t :
  txn_waits_ st !! t = None →
  txn_waits_ (promote_owners owners st).2 !! t = None.
Proof.
  revert st. induction owners as [|o owners IH]; intros st Ht; [done|].
  simpl. unfold mbind, LM_bind.
  pose proof (promote_owner_absent o st t Ht) as Ho.
  destruct (promote_owner o st) as [[] st1]. by apply IH.
Qed.

(** The promotion loop appends a transaction at most once, only if it had
    a counter, and leaves it without one. *)
Lemma promote_owners_promoted (owners : list Txn) st :
  ∃ promoted,
    ready_txns_ (promote_owners owners st).2 = ready_txns_ st ++ promoted ∧
    NoDup promoted ∧
    ∀ t, t ∈ promoted →
      is_Some (txn_waits_ st !! t) ∧
      txn_waits_ (promote_owners owners st).2 !! t = None.
Proof.
  revert st. induction owners as [|o owners IH]; intros st.
  { exists []. simpl. rewrite app_nil_r. split; [done|].
    split; [constructor|]. by intros t ?%not_elem_of_nil. }
  simpl. unfold mbind, LM_bind.
  destruct (IH (promote_owner o st).2) as (promoted & Hr & Hnd & Hp).
  pose proof (promote_owners_absent owners (promote_owner o st).2) as Habs.
  destruct (promote_owner o st) as [[] st1] eqn:E. simpl in *.
  unfold promote_owner in E.
  destruct (txn_waits_ st !! o) as [c|] eqn:Eo.
  - case_decide; inversion E; subst st1; clear E; simpl in *.
    + exists (o :: promoted). rewrite Hr, <-app_assoc.
      split; [done|].
      assert (o ∉ promoted) as Hfresh.
      { intros [Hs _]%Hp. rewrite lookup_delete_eq in Hs.
        by destruct Hs. }
      split; [by constructor|].
      intros t [->|Ht]%elem_of_cons.
      * split; [done|]. apply Habs, lookup_delete_eq.
      * destruct (Hp t Ht) as [Hs Hnone]. split; [|done].
        destruct (decide (o = t)) as [->|Hne]; [done|].
        by rewrite lookup_delete_ne, lookup_insert_ne in Hs.
    + exists promoted. split; [done|]. split; [done|].
      intros t Ht. destruct (Hp t Ht) as [Hs Hnone]. split; [|done].
      destruct (decide (o = t)) as [->|Hne]; [done|].
      by rewrite lookup_insert_ne in Hs.
  - inversion E; subst st1. by exists promoted.
Qed.

(** Whatever the call and the policy, the ready queue only grows; a
    transaction appended by the call had a counter before it and has none
    after it, and is appended once. *)
Lemma call_appends_erased p (c : Call Key Txn) st :
  ∃ promoted,
    ready_txns_ (call p c st).2 = ready_txns_ st ++ promoted ∧
    NoDup promoted ∧
    ∀ t, t ∈ promoted →
      is_Some (txn_waits_ st !! t) ∧
      txn_waits_ (call p c st).2 !! t = None.
Proof.
  assert (∀ st' : LockManager Key Txn,
    ready_txns_ st' = ready_txns_ st →
    ∃ promoted,
      ready_txns_ st' = ready_txns_ st ++ promoted ∧ NoDup promoted ∧
      ∀ t, t ∈ promoted →
        is_Some (txn_waits_ st !! t) ∧ txn_waits_ st' !! t = None)
    as Hnone.
  { intros st' Hr. exists []. rewrite app_nil_r. split; [done|].
    split; [constructor|]. by intros t ?%not_elem_of_nil. }
  destruct p, c as [txn key|txn key|txn key|key owners]; simpl;
    unfold ReadLockA, mbind, LM_bind, mret, LM_ret.
  - rewrite WriteLockA_eq. by apply Hnone.
  - rewrite WriteLockA_eq. by apply Hnone.
  - rewrite ReleaseA_eq. cbv zeta. simpl snd.
    destruct (queue_of st key) as [|it rest]; [by apply Hnone|].
    destruct (erase_scan_B txn (it :: rest)) as [|next rest'];
      [by apply Hnone|].
    case_decide; [|by apply Hnone].
    case_decide as Hc; [|by apply Hnone].
    exists [txn_ next]. simpl. split; [done|].
    split; [apply NoDup_singleton|].
    intros t ->%list_elem_of_singleton.
    split; [|apply lookup_delete_eq].
    unfold wait_entry in Hc.
    destruct (txn_waits_ st !! txn_ next); [done|simpl in Hc; lia].
  - rewrite StatusA_eq. simpl.
    destruct (queue_of st key); apply Hnone; by rewrite touch_eq.
  - rewrite ReadLockB_eq. by apply Hnone.
  - rewrite WriteLockB_eq. by apply Hnone.
  - rewrite ReleaseB_eq. cbv zeta.
    set (st0 := mkLockManager _ _ _).
    destruct (promote_owners_promoted
                (txn_ <$> accepted EXCLUSIVE
                   (erase_scan_B txn (queue_of st key))) st0)
      as (promoted & Hr & Hnd & Hp).
    destruct (promote_owners _ st0) as [[] st']. simpl in *.
    by exists promoted.
  - rewrite StatusB_eq. cbv zeta. simpl. apply Hnone. by rewrite touch_eq.
Qed.

(** ** Releasing a request that is not queued *)

(** Policy A: nothing observable changes. *)
Lemma ReleaseA_absent_noop txn key st :
  Forall (λ r, txn_ r ≠ txn) (queue_of st key) →
  obs_eq (ReleaseA txn key st).2 st.
Proof.
  intros Habsent. split.
  - intros k. rewrite ReleaseA_queue. case_decide; [subst|done].
    by apply erase_scan_B_absent.
  - apply ReleaseA_no_promotion.
    destruct Habsent as [|it [|next rest] Hit _]; done.
Qed.

(** Policy B: the queues and the owners stay as they are; the promotion
    loop runs all the same, over the owners of [key]. *)
Lemma ReleaseB_absent_queues txn key st :
  Forall (λ r, txn_ r ≠ txn) (queue_of st key) →
  (∀ k, queue_of (ReleaseB txn key st).2 k = queue_of st k) ∧
  ownersB (ReleaseB txn key st).2 key = ownersB st key ∧
  (ReleaseB txn key st).2 =
    (promote_owners (ownersB st key) (touch key st)).2.
Proof.
  intros Habsent.
  assert (∀ k, queue_of (ReleaseB txn key st).2 k = queue_of st k) as Hq.
  { intros k. rewrite ReleaseB_queue. case_decide; [subst|done].
    by apply erase_scan_B_absent. }
  split; [done|]. split.
  - by rewrite !ownersB_eq, Hq.
  - rewrite ReleaseB_eq, ownersB_eq, touch_eq. cbv zeta.
    by rewrite erase_scan_B_absent.
Qed.

End Properties.

(** * Concrete runs

    Keys are strings and transactions are numbered. *)

(** C1, on policy B.  T9 holds key m exclusively and T2 waits for it
    (count 1); T1 and T2 then share key k, both granted at once.  When T1
    releases k, [Release] finds T2 among the owners of k with a counter,
    takes it to zero and appends T2 to the ready queue, although the
    request of T2 on m is still queued behind the owner T9. *)
Theorem ReleaseB_readies_a_waiting_owner :
  let '(g1, s1) := WriteLockB (Key:=string) 9%nat "m" new_manager in
  let '(g2, s2) := WriteLockB 2%nat "m" s1 in
  let '(g3, s3) := ReadLockB 1%nat "k" s2 in
  let '(g4, s4) := ReadLockB 2%nat "k" s3 in
  let s5 := (ReleaseB 1%nat "k" s4).2 in
  (g1, g2, g3, g4) = (true, false, true, true) ∧
  txn_waits_ s4 !! 2%nat = Some 1 ∧
  ready_txns_ s4 = [] ∧
  ready_txns_ s5 = [2%nat] ∧
  txn_waits_ s5 !! 2%nat = None ∧
  queue_of s5 "m" =
    [mkLockRequest EXCLUSIVE 9%nat; mkLockRequest EXCLUSIVE 2%nat] ∧
  ownersB s5 "m" = [9%nat].
Proof. vm_compute. repeat split; reflexivity. Qed.

(** C2, on policy B.  T9 holds key m exclusively, T2 waits for it (count
    1) and owns key k as a reader.  Transaction 7 has no request on k;
    when it releases k the queue and the owners of k stay as they are, but
    the counter of T2 is taken to zero and erased, and T2 is appended to
    the ready queue. *)
Theorem ReleaseB_of_absent_request_promotes :
  let '(_, s1) := WriteLockB (Key:=string) 9%nat "m" new_manager in
  let '(_, s2) := WriteLockB 2%nat "m" s1 in
  let '(_, s3) := ReadLockB 2%nat "k" s2 in
  let s4 := (ReleaseB 7%nat "k" s3).2 in
  queue_of s3 "k" = [mkLockRequest SHARED 2%nat] ∧
  queue_of s4 "k" = queue_of s3 "k" ∧
  ownersB s4 "k" = ownersB s3 "k" ∧
  (txn_waits_ s3 !! 2%nat = Some 1 ∧ txn_waits_ s4 !! 2%nat = None) ∧
  (ready_txns_ s3 = [] ∧ ready_txns_ s4 = [2%nat]).
Proof. vm_compute. repeat split; reflexivity. Qed.

(** C10, on policy B.  Every transaction has at most one request per key.
    T9 holds key m exclusively and T2 waits for it (count 1); T1 and T2
    share key k, so T2 owns k already.  When T1 releases k, T2 is still
    an owner of k and becomes the owner of nothing, yet [Release] takes
    its counter from 1 to zero, erases it and appends T2 to the ready
    queue.  The same happens when T2 first withdraws its request on m, a
    [Release] that leaves its counter at 1 as it should: the later
    [Release] of k by T1 still takes that counter away. *)
Theorem ReleaseB_reduces_a_standing_owner :
  let '(_, s1) := WriteLockB (Key:=string) 9%nat "m" new_manager in
  let '(_, s2) := WriteLockB 2%nat "m" s1 in
  let '(_, s3) := ReadLockB 1%nat "k" s2 in
  let '(_, s4) := ReadLockB 2%nat "k" s3 in
  (requests_of 2%nat (queue_of s4 "m") = 1%nat ∧
   requests_of 2%nat (queue_of s4 "k") = 1%nat ∧
   requests_of 1%nat (queue_of s4 "k") = 1%nat ∧
   requests_of 9%nat (queue_of s4 "m") = 1%nat) ∧
  (let s5 := (ReleaseB 1%nat "k" s4).2 in
   ownersB s4 "k" = [1%nat; 2%nat] ∧ ownersB s4 "m" = [9%nat] ∧
   ownersB s5 "k" = [2%nat] ∧ ownersB s5 "m" = [9%nat] ∧
   txn_waits_ s4 !! 2%nat = Some 1 ∧ txn_waits_ s5 !! 2%nat = None ∧
   ready_txns_ s4 = [] ∧ ready_txns_ s5 = [2%nat]) ∧
  (let s5 := (ReleaseB 2%nat "m" s4).2 in
   let s6 := (ReleaseB 1%nat "k" s5).2 in
   queue_of s5 "m" = [mkLockRequest EXCLUSIVE 9%nat] ∧
   txn_waits_ s5 !! 2%nat = txn_waits_ s4 !! 2%nat ∧
   ownersB s5 "k" = [1%nat; 2%nat] ∧ ownersB s6 "k" = [2%nat] ∧
   ownersB s6 "m" = [9%nat] ∧
   txn_waits_ s6 !! 2%nat = None ∧ ready_txns_ s6 = [2%nat]).
Proof. vm_compute. repeat split; reflexivity. Qed.

(** ** The general statements at work on concrete states *)

(** C7 at work: transaction 2 asks for key x, held by transaction 1; the
    queue of key y is not touched. *)
Lemma WriteLockA_appends_and_counts_witness :
  let st := (WriteLockA (Key:=string) 1%nat "x" new_manager).2 in
  ("y" ≠ "x" ∧ 1%nat ≠ 2%nat) ∧
  queue_of (WriteLockA 2%nat "x" st).2 "y" = queue_of st "y" ∧
  txn_waits_ (WriteLockA 2%nat "x" st).2 !! 1%nat = txn_waits_ st !! 1%nat.
Proof.
  intros st.
  assert ("y" ≠ "x") as Hk by discriminate.
  assert (1%nat ≠ 2%nat) as Ht by lia.
  split; [done|].
  pose proof (WriteLockA_appends_and_counts 2%nat "x" st) as Hw.
  destruct (WriteLockA 2%nat "x" st) as [granted st'].
  destruct Hw as (_ & _ & _ & Hqueues & Hwaits & _).
  split; [by apply Hqueues|by apply Hwaits].
Defined.

(** C6 at work: transactions 1, 2 and 3 on key x. *)
Lemma ReleaseA_hands_over_to_next_witness :
  2%nat ≠ 3%nat ∧
  let '(g1, s1) := WriteLockA (Key:=string) 1%nat "x" new_manager in
  let '(g2, s2) := WriteLockA 2%nat "x" s1 in
  let '(g3, s3) := WriteLockA 3%nat "x" s2 in
  let s4 := (ReleaseA 1%nat "x" s3).2 in
  (g1, g2, g3) = (true, false, false) ∧
  txn_waits_ s3 !! 2%nat = Some 1 ∧
  txn_waits_ s3 !! 3%nat = Some 1 ∧
  queue_of s4 "x" =
    [mkLockRequest EXCLUSIVE 2%nat; mkLockRequest EXCLUSIVE 3%nat] ∧
  ready_txns_ s4 = [2%nat] ∧
  txn_waits_ s4 !! 2%nat = None ∧
  txn_waits_ s4 !! 3%nat = Some 1.
Proof.
  assert (2%nat ≠ 3%nat) as H23 by lia.
  split; [done|].
  exact (proj2 ReleaseA_hands_over_to_next "x" 1%nat 2%nat 3%nat H23).
Defined.

(** C3 at work: with the writer 3 queued behind the readers 1 and 2, the
    reader 4 is not admitted. *)
Lemma ReadLockB_admission_witness :
  let st :=
    (WriteLockB 3%nat "y"
       (ReadLockB 2%nat "y"
          (ReadLockB (Key:=string) 1%nat "y" new_manager).2).2).2 in
  Exists (λ r, mode_ r = EXCLUSIVE) (queue_of st "y") ∧
  (ReadLockB 4%nat "y" st).1 = false.
Proof.
  intros st.
  assert (Exists (λ r, mode_ r = EXCLUSIVE) (queue_of st "y")) as Hex.
  { vm_compute. do 2 apply Exists_cons_tl. by apply Exists_cons_hd. }
  split; [done|].
  pose proof (ReadLockB_admission 4%nat "y" st) as Hw.
  destruct (ReadLockB 4%nat "y" st) as [granted st'].
  destruct Hw as (_ & _ & _ & _ & _ & _ & Hgate).
  by apply Hgate.
Defined.

(** C4 at work: the readers 1 and 2 own key y ahead of the writer 3, and a
    lone writer is the only owner of key z. *)
Lemma Status_reports_accepted_prefix_witness :
  let st :=
    (WriteLockB 5%nat "z"
       (WriteLockB 3%nat "y"
          (ReadLockB 2%nat "y"
             (ReadLockB (Key:=string) 1%nat "y" new_manager).2).2).2).2 in
  (queue_of st "y" ≠ [] ∧
   (StatusB "y" (Some []) st).1 = (SHARED, Some [1%nat; 2%nat])) ∧
  (Forall (λ r, mode_ r ≠ UNLOCKED) (queue_of st "z") ∧
   (StatusB "z" (Some []) st).1 = (EXCLUSIVE, Some [5%nat]) ∧
   length [5%nat] = 1%nat).
Proof.
  intros st.
  assert (queue_of st "y" ≠ []) as Hne by (vm_compute; discriminate).
  assert (Forall (λ r, mode_ r ≠ UNLOCKED) (queue_of st "z")) as Hvalid.
  { vm_compute. repeat constructor. discriminate. }
  assert ((StatusB "z" (Some []) st).1 = (EXCLUSIVE, Some [5%nat])) as Hz
    by (vm_compute; reflexivity).
  destruct (Status_reports_accepted_prefix "y" [] st) as ((Hy & _) & _ & _);
    [done|].
  destruct (Status_reports_accepted_prefix "z" [] st) as (_ & Hone & _).
  split; [split; [done|]|].
  - rewrite Hy. vm_compute. reflexivity.
  - split; [done|]. split; [done|]. by apply (Hone Hvalid).
Defined.

(** C5 at work: key y, transactions 1 to 4. *)
Lemma policy_B_readers_then_writer_witness :
  NoDup [1%nat; 2%nat; 3%nat; 4%nat] ∧
  let '(g1, s1) := ReadLockB (Key:=string) 1%nat "y" new_manager in
  let '(g2, s2) := ReadLockB 2%nat "y" s1 in
  let '(g3, s3) := WriteLockB 3%nat "y" s2 in
  let '(g4, s4) := ReadLockB 4%nat "y" s3 in
  let s5 := (ReleaseB 1%nat "y" s4).2 in
  let s6 := (ReleaseB 2%nat "y" s5).2 in
  let s7 := (ReleaseB 3%nat "y" s6).2 in
  (g1, g2, g3, g4) = (true, true, false, false) ∧
  txn_waits_ s3 !! 3%nat = Some 1 ∧
  txn_waits_ s4 !! 3%nat = Some 1 ∧
  txn_waits_ s4 !! 4%nat = Some 1 ∧
  ready_txns_ s4 = [] ∧
  (ready_txns_ s5 = [] ∧ txn_waits_ s5 = txn_waits_ s4 ∧
   ownersB s5 "y" = [2%nat]) ∧
  (ready_txns_ s6 = [3%nat] ∧ txn_waits_ s6 !! 3%nat = None ∧
   ownersB s6 "y" = [3%nat]) ∧
  (ready_txns_ s7 = [3%nat; 4%nat] ∧ txn_waits_ s7 !! 4%nat = None ∧
   ownersB s7 "y" = [4%nat]).
Proof.
  assert (NoDup [1%nat; 2%nat; 3%nat; 4%nat]) as Hnd.
  { apply (bool_decide_unpack _). vm_compute. exact I. }
  split; [done|].
  exact (policy_B_readers_then_writer "y" 1%nat 2%nat 3%nat 4%nat Hnd).
Defined.

(** [Release_spares_own_counter] at work: transaction 2 waits for key x
    behind transaction 1 and gives up; its request leaves the queue and
    its counter stays at 1. *)
Lemma Release_spares_own_counter_example :
  let st :=
    (WriteLockA 2%nat "x"
       (WriteLockA (Key:=string) 1%nat "x" new_manager).2).2 in
  (requests_of 2%nat (queue_of st "x") ≤ 1)%nat ∧
  txn_waits_ st !! 2%nat = Some 1 ∧
  txn_waits_ (ReleaseA 2%nat "x" st).2 !! 2%nat = txn_waits_ st !! 2%nat ∧
  txn_waits_ (ReleaseB 2%nat "x" st).2 !! 2%nat = txn_waits_ st !! 2%nat.
Proof.
  intros st.
  assert (requests_of 2%nat (queue_of st "x") ≤ 1)%nat as Hone.
  { vm_compute. lia. }
  split; [done|]. split; [vm_compute; reflexivity|].
  destruct (Release_spares_own_counter 2%nat "x" st Hone)
    as ((_ & HA & _) & (_ & HB & _)).
  done.
Defined.

(** * Further properties of the two managers *)

Section FurtherProperties.

Context {Key Txn : Type}.
Context `{Countable Key} `{Countable Txn}.

Implicit Types (st : LockManager Key Txn) (key : Key) (txn : Txn).
Implicit Types (q dq : list (LockRequest Txn)).

(** ** Queues of shared and exclusive requests *)

Lemma Forall_accepted (P : LockRequest Txn → Prop) running q :
  Forall P q → Forall P (accepted running q).
Proof.
  intros Hq. destruct (accepted_prefix running q) as [k Hk].
  rewrite Hk in Hq. by apply Forall_app in Hq as [? _].
Qed.

Lemma status_mode_unlocked q :
  Forall (λ r, mode_ r ≠ UNLOCKED) q →
  status_mode q = UNLOCKED ↔ q = [].
Proof.
  intros Hvalid. destruct q as [|r rest]; [done|].
  split; [|done]. unfold status_mode. intros Hu. exfalso.
  revert Hu. apply (last_mode_Forall (λ m, m ≠ UNLOCKED)); [done|].
  by apply Forall_accepted.
Qed.

Lemma accepted_all_shared running q :
  Forall (λ r, mode_ r = SHARED) q → accepted running q = q.
Proof.
  intros Hq. revert running.
  induction Hq as [|r rest Hr _ IH]; intros running; [done|].
  simpl. rewrite Hr. by rewrite IH.
Qed.

Lemma shared_of_no_exclusive q :
  Forall (λ r, mode_ r ≠ UNLOCKED) q →
  Forall (λ r, mode_ r ≠ EXCLUSIVE) q →
  Forall (λ r, mode_ r = SHARED) q.
Proof.
  intros Hv He. apply Forall_forall. intros r Hr.
  rewrite Forall_forall in Hv, He.
  specialize (Hv r Hr). specialize (He r Hr). by destruct (mode_ r).
Qed.

(** Behind a queued exclusive request nothing is ever accepted. *)
Lemma accepted_app_exclusive running q k :
  Exists (λ r, mode_ r = EXCLUSIVE) q →
  accepted running (q ++ k) = accepted running q.
Proof.
  intros Hex. revert running.
  induction q as [|r rest IH]; intros running; [by inversion Hex|].
  simpl. destruct (mode_ r) eqn:Er.
  - rewrite IH; [done|]. inversion Hex; subst; [congruence|done].
  - rewrite IH; [done|]. inversion Hex; subst; [congruence|done].
  - done.
Qed.

(** An exclusive request arriving behind readers is not accepted. *)
Lemma accepted_shared_then_exclusive running q (rq : LockRequest Txn) :
  Forall (λ r, mode_ r = SHARED) q → q ≠ [] → mode_ rq = EXCLUSIVE →
  accepted running (q ++ [rq]) = q.
Proof.
  intros Hq Hne Hrq. revert running.
  induction Hq as [|r rest Hr Hrest IH]; intros running; [done|].
  simpl. rewrite Hr. f_equal.
  destruct rest as [|r' rest']; [simpl; by rewrite Hrq|].
  by apply IH.
Qed.

Lemma not_exclusive_iff q :
  ¬ Exists (λ r, mode_ r = EXCLUSIVE) q ↔
  Forall (λ r, mode_ r ≠ EXCLUSIVE) q.
Proof.
  rewrite Forall_forall, Exists_exists. split.
  - intros Hn r Hr He. apply Hn. by exists r.
  - intros Hall (r & Hr & He). by apply (Hall r).
Qed.

(** ** Policy B: [WriteLock] *)

(** X1. On a key whose queue holds shared and exclusive requests only,
    [WriteLock] of policy B is [WriteLock] of policy A: the same answer and
    the same state.  It is granted exactly when the queue was empty; a
    refused call appends the request all the same and raises the counter
    of [txn] by one. *)
Theorem WriteLockB_is_WriteLockA txn key st :
  Forall (λ r, mode_ r ≠ UNLOCKED) (queue_of st key) →
  WriteLockB txn key st = WriteLockA txn key st ∧
  ((WriteLockB txn key st).1 = true ↔ queue_of st key = []) ∧
  queue_of (WriteLockB txn key st).2 key =
    queue_of st key ++ [mkLockRequest EXCLUSIVE txn] ∧
  txn_waits_ (WriteLockB txn key st).2 !! txn =
    (if (WriteLockB txn key st).1 then txn_waits_ st !! txn
     else Some (wait_entry (txn_waits_ st) txn + 1)).
Proof.
  intros Hvalid.
  assert (bool_decide (status_mode (queue_of st key) = UNLOCKED) =
          bool_decide (queue_of st key = [])) as Hb.
  { apply bool_decide_ext. by apply status_mode_unlocked. }
  rewrite WriteLockB_eq, WriteLockA_eq. cbv zeta. rewrite Hb. simpl.
  split; [done|]. split; [apply bool_decide_eq_true|].
  split; [by rewrite queue_of_insert, decide_True|].
  destruct (bool_decide (queue_of st key = [])); [done|].
  by rewrite lookup_insert_eq.
Qed.

(** ** Policy B: the answer of a lock call and the owners after it *)

(** X2. Under policy B, on a key whose queue holds shared and exclusive
    requests only, the answer of a lock call agrees with what [Status]
    reports right after it.  A granted [ReadLock] leaves every queued
    transaction, the new one included, an owner; a granted [WriteLock]
    leaves [txn] the only owner; a refused call of either kind leaves the
    owners exactly as they were. *)
Theorem lock_answer_agrees_with_owners txn key st :
  Forall (λ r, mode_ r ≠ UNLOCKED) (queue_of st key) →
  (let '(granted, st') := ReadLockB txn key st in
   ownersB st' key =
     if granted then txn_ <$> queue_of st' key else ownersB st key) ∧
  (let '(granted, st') := WriteLockB txn key st in
   ownersB st' key = if granted then [txn] else ownersB st key).
Proof.
  intros Hvalid. split.
  - rewrite ReadLockB_eq. cbv zeta.
    rewrite !ownersB_eq, queue_of_insert, decide_True by done.
    set (q := queue_of st key) in *.
    destruct (bool_decide (status_mode q = UNLOCKED) || no_exclusive_loop q)
      eqn:Eg.
    + f_equal. apply accepted_all_shared.
      apply orb_true_iff in Eg as [Hu%bool_decide_eq_true|He].
      * apply status_mode_unlocked in Hu; [|done]. rewrite Hu.
        by repeat constructor.
      * apply no_exclusive_loop_spec in He.
        apply Forall_app. split; [by apply shared_of_no_exclusive|].
        by repeat constructor.
    + f_equal. apply accepted_app_exclusive.
      apply orb_false_iff in Eg as [_ He].
      destruct (decide (Exists (λ r, mode_ r = EXCLUSIVE) q)) as [|Hn];
        [done|].
      apply not_exclusive_iff, no_exclusive_loop_spec in Hn. congruence.
  - rewrite WriteLockB_eq. cbv zeta.
    rewrite !ownersB_eq, queue_of_insert, decide_True by done.
    set (q := queue_of st key) in *.
    case_bool_decide as Hu.
    + apply status_mode_unlocked in Hu; [|done]. by rewrite Hu.
    + f_equal.
      destruct (decide (Exists (λ r, mode_ r = EXCLUSIVE) q)) as [Hex|Hn].
      * by apply accepted_app_exclusive.
      * apply not_exclusive_iff in Hn.
        rewrite (accepted_all_shared _ q)
          by by apply shared_of_no_exclusive.
        apply accepted_shared_then_exclusive;
          [by apply shared_of_no_exclusive| |done].
        intros Hq. apply Hu. by rewrite Hq.
Qed.

Lemma status_mode_nonempty q :
  q ≠ [] → status_mode q = last_mode EXCLUSIVE (accepted EXCLUSIVE q).
Proof. by destruct q. Qed.

Lemma StatusB_nonempty key (owners : option (list Txn)) st :
  queue_of st key ≠ [] →
  (StatusB key owners st).1 =
    (status_mode (queue_of st key),
     (λ _, txn_ <$> accepted EXCLUSIVE (queue_of st key)) <$> owners).
Proof.
  intros Hne. rewrite StatusB_eq. cbv zeta. simpl.
  by destruct (queue_of st key).
Qed.

(** ** [LockManagerB::_noExclusiveWaiting] *)

Lemma noExclusiveWaiting_eq key st :
  _noExclusiveWaiting key st =
    (no_exclusive_loop (queue_of st key), touch key st).
Proof.
  unfold _noExclusiveWaiting, mbind, LM_bind, mret, LM_ret.
  by rewrite getLockQueue_eq, touch_eq.
Qed.

Lemma all_owners_no_exclusive q :
  Forall (λ r, mode_ r ≠ UNLOCKED) q →
  accepted EXCLUSIVE q = q → status_mode q = SHARED →
  Forall (λ r, mode_ r ≠ EXCLUSIVE) q.
Proof.
  intros Hvalid Hacc Hmode.
  destruct Hvalid as [|r rest Hr Hrest]; [constructor|].
  unfold status_mode in Hmode. simpl in Hacc, Hmode.
  destruct (mode_ r) eqn:Er; [done| |].
  - injection Hacc as Hacc.
    pose proof (accepted_shared_run rest Hrest) as Hrun.
    rewrite Hacc in Hrun. constructor; [congruence|].
    eapply Forall_impl; [exact Hrun|]. simpl. congruence.
  - injection Hacc as <-. unfold last_mode in Hmode. simpl in Hmode.
    congruence.
Qed.

(** X3. [_noExclusiveWaiting] answers [true] exactly when no request in
    the queue of [key] is exclusive (so it answers [true] for an empty
    queue and for a key never seen), and its only effect on the state is
    the lazy creation of the queue.  For a non-empty queue of shared and
    exclusive requests, it answers [true] exactly when [Status] answers
    [SHARED] and reports every queued transaction as an owner. *)
Theorem noExclusiveWaiting_iff_all_owners key st :
  (_noExclusiveWaiting key st).2 = touch key st ∧
  ((_noExclusiveWaiting key st).1 = true ↔
     Forall (λ r, mode_ r ≠ EXCLUSIVE) (queue_of st key)) ∧
  (lock_table_ st !! key = None → (_noExclusiveWaiting key st).1 = true) ∧
  (Forall (λ r, mode_ r ≠ UNLOCKED) (queue_of st key) →
   queue_of st key ≠ [] →
   ((_noExclusiveWaiting key st).1 = true ↔
      (StatusB key (Some []) st).1 =
        (SHARED, Some (txn_ <$> queue_of st key)))).
Proof.
  rewrite noExclusiveWaiting_eq. simpl.
  split; [done|]. split; [apply no_exclusive_loop_spec|]. split.
  { unfold queue_of. by intros ->. }
  intros Hvalid Hne. rewrite StatusB_nonempty by done.
  rewrite no_exclusive_loop_spec. simpl.
  set (q := queue_of st key) in *.
  split.
  - intros Hall.
    pose proof (shared_of_no_exclusive _ Hvalid Hall) as Hs.
    rewrite status_mode_nonempty, (accepted_all_shared _ _ Hs) by done.
    f_equal. destruct Hs as [|r rest Hr Hrest]; [done|].
    rewrite last_mode_cons.
    by apply (last_mode_Forall (λ m, m = SHARED)).
  - intros Heq.
    assert (status_mode q = SHARED) as Hmode by congruence.
    assert (txn_ <$> accepted EXCLUSIVE q = txn_ <$> q) as Hown
      by congruence.
    apply all_owners_no_exclusive; [done| |done].
    destruct (accepted_prefix EXCLUSIVE q) as [k Hk].
    assert (length (accepted EXCLUSIVE q) = length q) as Hlen.
    { by rewrite <-(length_fmap txn_), Hown, length_fmap. }
    rewrite Hk in Hlen at 2. rewrite length_app in Hlen.
    destruct k; [by rewrite app_nil_r in Hk|simpl in Hlen; lia].
Qed.

(** ** [Status] and the vector of the caller *)

(** X4. For an empty queue, and so for a key never seen, [Status] of both
    policies answers [UNLOCKED] and leaves the vector of the caller as it
    found it.  For a non-empty queue the former contents of the vector do
    not matter: it is overwritten, not extended.  Under policy B a null
    pointer gets the same mode and no owners. *)
Theorem Status_and_owners_vector key (vec : list Txn) st :
  (lock_table_ st !! key = None → queue_of st key = []) ∧
  (queue_of st key = [] →
   (StatusA key vec st).1 = (UNLOCKED, vec) ∧
   (StatusB key (Some vec) st).1 = (UNLOCKED, Some vec) ∧
   (StatusB key None st).1 = (UNLOCKED, None)) ∧
  (queue_of st key ≠ [] →
   (StatusA key vec st).1 = (StatusA key [] st).1 ∧
   (StatusB key (Some vec) st).1 = (StatusB key (Some []) st).1 ∧
   (StatusB key None st).1 = ((StatusB key (Some vec) st).1.1, None) ∧
   (StatusA key vec st).1.1 ≠ UNLOCKED).
Proof.
  rewrite !StatusA_eq, !StatusB_eq. cbv zeta. simpl.
  split; [unfold queue_of; by intros ->|].
  split; [by intros ->|].
  intros Hne. by destruct (queue_of st key).
Qed.

(** X5. Whenever the queue of [key] is not empty, the transaction of its
    front request is the first owner [Status] reports, under both
    policies; and when the queue holds shared and exclusive requests only,
    policy B answers the mode of that front request. *)
Theorem front_request_is_first_owner key st (front : LockRequest Txn) rest :
  queue_of st key = front :: rest →
  head (ownersA st key) = Some (txn_ front) ∧
  head (ownersB st key) = Some (txn_ front) ∧
  (Forall (λ r, mode_ r ≠ UNLOCKED) (queue_of st key) →
   (StatusB key None st).1.1 = mode_ front).
Proof.
  intros Hq. rewrite ownersA_eq, ownersB_eq, StatusB_eq, Hq. cbv zeta. simpl.
  split; [done|]. split; [by destruct (mode_ front)|].
  intros Hvalid. inversion Hvalid as [|? ? Hf Hrest]; subst.
  unfold status_mode. simpl.
  destruct (mode_ front) eqn:Ef; [done| |done].
  rewrite last_mode_cons, Ef.
  by apply (last_mode_Forall (λ m, m = SHARED)), accepted_shared_run.
Qed.

(** ** [LockManager::_getLockQueue] and the lock table *)

(** X6. [_getLockQueue] hands out the queue stored for [key], and an empty
    one for a key never seen, which it stores on the way.  After the call
    the key is in the table with exactly the contents handed out, the
    entries of the other keys are as before, and a second call gives the
    same queue and changes nothing. *)
Theorem getLockQueue_creates_once key st :
  let '(dq, st') := _getLockQueue key st in
  dq = queue_of st key ∧
  (lock_table_ st !! key = None → dq = []) ∧
  lock_table_ st' !! key = Some dq ∧
  (∀ k, k ≠ key → lock_table_ st' !! k = lock_table_ st !! k) ∧
  _getLockQueue key st' = (dq, st').
Proof.
  rewrite getLockQueue_eq. split; [done|].
  split; [unfold queue_of; by intros ->|].
  split; [apply lookup_insert_eq|].
  split; [intros k Hk; by apply lookup_insert_ne|].
  rewrite getLockQueue_eq, queue_of_insert, decide_True by done. simpl.
  by rewrite insert_insert_eq.
Qed.

Lemma call_lock_table p (c : Call Key Txn) st :
  ∃ dq, lock_table_ (call p c st).2 = <[key_of c := dq]> (lock_table_ st).
Proof.
  destruct p, c as [txn key|txn key|txn key|key owners]; simpl;
    unfold ReadLockA, mbind, LM_bind, mret, LM_ret.
  - rewrite WriteLockA_eq. by eexists.
  - rewrite WriteLockA_eq. by eexists.
  - rewrite ReleaseA_eq. cbv zeta. simpl snd.
    exists (erase_scan_B txn (queue_of st key)).
    destruct (queue_of st key) as [|it rest]; [done|].
    destruct (erase_scan_B txn (it :: rest)); [done|].
    by repeat case_decide.
  - rewrite StatusA_eq, touch_eq.
    destruct (queue_of st key); simpl; by eexists.
  - rewrite ReadLockB_eq. by eexists.
  - rewrite WriteLockB_eq. by eexists.
  - rewrite ReleaseB_eq. cbv zeta.
    pose proof (promote_owners_table
      (txn_ <$> accepted EXCLUSIVE (erase_scan_B txn (queue_of st key)))
      (mkLockManager
         (<[key := erase_scan_B txn (queue_of st key)]> (lock_table_ st))
         (txn_waits_ st) (ready_txns_ st))) as Ht.
    destruct (promote_owners _ _) as [[] st']. simpl in *. by eexists.
  - rewrite StatusB_eq, touch_eq. by eexists.
Qed.

(** X7. Whatever the policy, a call writes one entry of the lock table, the
    one of its own key: no key ever leaves the table (a queue emptied by
    [Release] stays in it, empty), the key of the call is in the table
    afterwards, and the queue of every other key is left as it was. *)
Theorem call_keeps_the_table p (c : Call Key Txn) st :
  let st' := (call p c st).2 in
  dom (lock_table_ st') = dom (lock_table_ st) ∪ {[ key_of c ]} ∧
  (∀ k, k ≠ key_of c → lock_table_ st' !! k = lock_table_ st !! k).
Proof.
  destruct (call_lock_table p c st) as [dq Ht]. cbv zeta. rewrite Ht.
  split.
  - rewrite dom_insert_L. apply set_eq. intros k.
    rewrite !elem_of_union. tauto.
  - intros k Hk. by apply lookup_insert_ne.
Qed.

(** ** What [Release] takes out of a queue *)

Lemma erase_scan_B_sublist_of txn q : erase_scan_B txn q `sublist_of` q.
Proof.
  induction q as [|it rest IH]; [constructor|].
  rewrite erase_scan_B_cons. case_decide.
  - by apply sublist_cons.
  - by apply sublist_skip.
Qed.

Lemma erase_scan_B_requests txn q t :
  requests_of t (erase_scan_B txn q) =
    if decide (t = txn) then Nat.pred (requests_of t q)
    else requests_of t q.
Proof.
  induction q as [|it rest IH].
  { simpl. by case_decide. }
  rewrite erase_scan_B_cons.
  destruct (decide (txn_ it = txn)) as [Hit|Hit].
  - rewrite requests_of_cons. subst txn.
    destruct (decide (t = txn_ it)) as [->|Hne].
    + by rewrite decide_True.
    + by rewrite decide_False.
  - rewrite !requests_of_cons, IH.
    destruct (decide (t = txn)) as [->|Hne]; [|done].
    by rewrite !decide_False by done.
Qed.

(** X8. Under both policies [Release] takes at most one request out of the
    queue of [key], a request of [txn]: the requests that stay keep their
    order, [txn] has one request less (none less if it had none), every
    other transaction has as many as before, and the length of the queue
    goes down by what [txn] lost. *)
Theorem Release_takes_one_request txn key st :
  let q := queue_of st key in
  let qA := queue_of (ReleaseA txn key st).2 key in
  let qB := queue_of (ReleaseB txn key st).2 key in
  qA = qB ∧
  qB `sublist_of` q ∧
  (∀ t, requests_of t qB =
        if decide (t = txn) then Nat.pred (requests_of t q)
        else requests_of t q) ∧
  (length qB + requests_of txn q = length q + requests_of txn qB)%nat.
Proof.
  cbv zeta. rewrite ReleaseA_queue, ReleaseB_queue, !decide_True by done.
  split; [done|]. split; [apply erase_scan_B_sublist_of|].
  split; [intros t; apply erase_scan_B_requests|].
  induction (queue_of st key) as [|it rest IH]; [done|].
  rewrite erase_scan_B_cons.
  destruct (decide (txn_ it = txn)) as [Hit|Hit].
  - rewrite requests_of_cons, decide_True by done. simpl. lia.
  - rewrite !requests_of_cons, !decide_False by done. simpl. lia.
Qed.

(** ** Policy B: what [Release] does to the new owners *)

Lemma promote_owner_lookup (o : Txn) st t :
  txn_waits_ (promote_owner o st).2 !! t =
    if decide (t = o) then promoted_entry (txn_waits_ st !! o)
    else txn_waits_ st !! t.
Proof.
  unfold promote_owner, promoted_entry.
  destruct (txn_waits_ st !! o) as [c|] eqn:Eo.
  - destruct (decide (c - 1 = 0)); simpl; case_decide; subst;
      rewrite ?lookup_delete_eq, ?lookup_insert_eq; try done.
    + by rewrite lookup_delete_ne, lookup_insert_ne.
    + by rewrite lookup_insert_ne.
  - simpl. by case_decide; subst.
Qed.

Lemma promote_owner_ready (o : Txn) st :
  ready_txns_ (promote_owner o st).2 =
    ready_txns_ st ++ filter (λ t, txn_waits_ st !! t = Some 1) [o].
Proof.
  unfold promote_owner. rewrite filter_singleton; [|exact []].
  destruct (txn_waits_ st !! o) as [c|] eqn:Eo.
  - destruct (decide (c - 1 = 0)), (decide (Some c = Some 1)); simpl;
      try done.
    + exfalso. assert (c = 1) by lia. congruence.
    + exfalso. assert (c = 1) by congruence. lia.
    + by rewrite app_nil_r.
  - destruct (decide (None = Some 1)); [done|]. simpl.
    by rewrite app_nil_r.
Qed.

Lemma filter_ready_ext (w1 w2 : gmap Txn Z) (l : list Txn) :
  (∀ t, t ∈ l → w1 !! t = w2 !! t) →
  filter (λ t, w1 !! t = Some 1) l = filter (λ t, w2 !! t = Some 1) l.
Proof.
  induction l as [|o l IH]; intros Hl; [done|].
  rewrite !filter_cons, (Hl o) by left.
  rewrite IH; [done|]. intros t Ht. apply Hl. by right.
Qed.

(** Over owners that are all distinct, the loop takes one off every
    counter it finds, erases those that reach zero, and appends their
    transactions to the ready queue in the order of the owners. *)
Lemma promote_owners_NoDup (owners : list Txn) st :
  NoDup owners →
  (∀ t, txn_waits_ (promote_owners owners st).2 !! t =
        if decide (t ∈ owners) then promoted_entry (txn_waits_ st !! t)
        else txn_waits_ st !! t) ∧
  ready_txns_ (promote_owners owners st).2 =
    ready_txns_ st ++ filter (λ t, txn_waits_ st !! t = Some 1) owners.
Proof.
  intros Hnd. revert st.
  induction Hnd as [|o owners Ho Hnd IH]; intros st.
  { simpl. split; [done|]. by rewrite app_nil_r. }
  simpl. unfold mbind, LM_bind.
  pose proof (promote_owner_lookup o st) as Hw1.
  pose proof (promote_owner_ready o st) as Hr1.
  destruct (promote_owner o st) as [[] st1]. simpl in *.
  destruct (IH st1) as [Hw Hr]. split.
  - intros t. rewrite Hw, !Hw1.
    destruct (decide (t = o)) as [->|Hne].
    + rewrite decide_False, decide_True by (done || left). done.
    + destruct (decide (t ∈ owners)) as [Hin|Hout].
      * rewrite decide_True by by right. done.
      * rewrite decide_False; [done|].
        by intros [?|?]%elem_of_cons.
  - rewrite Hr, Hr1, <-app_assoc. f_equal.
    rewrite (filter_ready_ext (txn_waits_ st1) (txn_waits_ st) owners).
    + rewrite filter_singleton; [|exact []]. rewrite filter_cons.
      by case_decide.
    + intros t Ht. rewrite Hw1, decide_False; [done|]. by intros ->.
Qed.

(** X9. Under policy B, [Release] takes the first request of [txn] out of
    the queue of [key], wherever it stands, and leaves the other queues
    alone.  When the owners of [key] after that are all distinct, each of
    them that has a counter loses 1 on it; those whose counter was 1 lose
    the counter and are appended to the ready queue, in the order of the
    owners; no other counter changes. *)
Theorem ReleaseB_promotes_the_owners txn key st :
  let st' := (ReleaseB txn key st).2 in
  NoDup (ownersB st' key) →
  removes_first txn (queue_of st key) (queue_of st' key) ∧
  (∀ k, k ≠ key → queue_of st' k = queue_of st k) ∧
  (∀ t, txn_waits_ st' !! t =
        if decide (t ∈ ownersB st' key)
        then promoted_entry (txn_waits_ st !! t)
        else txn_waits_ st !! t) ∧
  ready_txns_ st' =
    ready_txns_ st ++
      filter (λ t, txn_waits_ st !! t = Some 1) (ownersB st' key).
Proof.
  cbv zeta. rewrite ownersB_eq, ReleaseB_queue, decide_True by done.
  intros Hnd.
  split; [apply erase_scan_B_removes_first|].
  split; [intros k Hk; by rewrite ReleaseB_queue, decide_False|].
  rewrite ReleaseB_eq. cbv zeta.
  exact (promote_owners_NoDup _
    (mkLockManager
       (<[key := erase_scan_B txn (queue_of st key)]> (lock_table_ st))
       (txn_waits_ st) (ready_txns_ st)) Hnd).
Qed.

(** ** A lock taken on a free key and given back *)

(** X10. On a key whose queue is empty, under both policies, a lock call
    is granted, and the [Release] that follows gives back a state with the
    same queues, counters and ready queue as before the lock call. *)
Theorem lock_then_release_on_free_key txn key st :
  queue_of st key = [] →
  ((WriteLockA txn key st).1 = true ∧
   obs_eq (ReleaseA txn key (WriteLockA txn key st).2).2 st) ∧
  ((WriteLockB txn key st).1 = true ∧
   obs_eq (ReleaseB txn key (WriteLockB txn key st).2).2 st) ∧
  ((ReadLockB txn key st).1 = true ∧
   obs_eq (ReleaseB txn key (ReadLockB txn key st).2).2 st).
Proof.
  intros Hq.
  assert (∀ w r,
    obs_eq (mkLockManager (<[key := []]> (lock_table_ st)) w r)
           (mkLockManager (lock_table_ st) w r)) as Hobs.
  { intros w r. split; [|done]. intros k. rewrite queue_of_insert.
    case_decide as Hk; [|done]. rewrite Hk.
    unfold queue_of in *. simpl. by rewrite Hq. }
  split; [|split].
  - rewrite WriteLockA_eq, Hq. simpl. split; [done|].
    rewrite ReleaseA_eq, queue_of_insert, decide_True by done. simpl.
    rewrite decide_True by done. rewrite insert_insert_eq.
    destruct st. apply Hobs.
  - rewrite WriteLockB_eq, Hq. simpl. split; [done|].
    rewrite ReleaseB_eq, queue_of_insert, decide_True by done. simpl.
    rewrite decide_True by done. simpl. rewrite insert_insert_eq.
    destruct st. apply Hobs.
  - rewrite ReadLockB_eq, Hq. simpl. split; [done|].
    rewrite ReleaseB_eq, queue_of_insert, decide_True by done. simpl.
    rewrite decide_True by done. simpl. rewrite insert_insert_eq.
    destruct st. apply Hobs.
Qed.

(** ** Policy B: releasing a request that is not queued *)

Lemma promote_owners_no_counter (owners : list Txn) st :
  (∀ t, t ∈ owners → txn_waits_ st !! t = None) →
  promote_owners owners st = (tt, st).
Proof.
  induction owners as [|o owners IH]; intros Hnone; [done|].
  simpl. unfold mbind, LM_bind, promote_owner.
  rewrite (Hnone o) by left. apply IH.
  intros t Ht. apply Hnone. by right.
Qed.

(** X11. Under policy B, a [Release] for a transaction that has no request
    in the queue of [key] changes no queue, counter or ready queue as long
    as no owner of [key] has a wait counter; in particular on a key whose
    queue is empty. *)
Theorem ReleaseB_absent_noop txn key st :
  Forall (λ r, txn_ r ≠ txn) (queue_of st key) →
  (∀ t, t ∈ ownersB st key → txn_waits_ st !! t = None) →
  obs_eq (ReleaseB txn key st).2 st.
Proof.
  intros Habsent Hnone.
  rewrite ReleaseB_eq, erase_scan_B_absent by done. cbv zeta.
  rewrite promote_owners_no_counter.
  - simpl. rewrite <-touch_eq. apply obs_eq_touch.
  - simpl. intros t Ht. apply Hnone. by rewrite ownersB_eq.
Qed.

(** ** Policy B: a queued writer keeps later readers out *)

Lemma erase_scan_B_keeps txn q (r : LockRequest Txn) :
  r ∈ q → txn_ r ≠ txn → r ∈ erase_scan_B txn q.
Proof.
  intros Hr Hne. induction q as [|it rest IH]; [done|].
  rewrite erase_scan_B_cons.
  apply elem_of_cons in Hr as [->|Hr].
  - rewrite decide_False by done. by left.
  - case_decide; [done|]. right. by apply IH.
Qed.

Lemma ReadLockB_refused txn key st :
  Exists (λ r, mode_ r = EXCLUSIVE) (queue_of st key) →
  (ReadLockB txn key st).1 = false.
Proof.
  intros Hex. rewrite ReadLockB_eq. cbv zeta. simpl.
  apply orb_false_iff. split.
  - apply bool_decide_eq_false.
    destruct (queue_of st key) as [|r rest] eqn:Eq; [by inversion Hex|].
    by apply (last_mode_exclusive_queued EXCLUSIVE (r :: rest)).
  - apply not_true_is_false. rewrite no_exclusive_loop_spec.
    intros Hall. by apply not_exclusive_iff in Hall.
Qed.

Lemma call_B_queue (c : Call Key Txn) st k :
  queue_of (call PolicyB c st).2 k =
    if decide (k = key_of c) then
      match c with
      | CallReadLock txn _ => queue_of st k ++ [mkLockRequest SHARED txn]
      | CallWriteLock txn _ => queue_of st k ++ [mkLockRequest EXCLUSIVE txn]
      | CallRelease txn _ => erase_scan_B txn (queue_of st k)
      | CallStatus _ _ => queue_of st k
      end
    else queue_of st k.
Proof.
  destruct c as [txn key|txn key|txn key|key owners]; simpl;
    unfold mbind, LM_bind, mret, LM_ret.
  - rewrite ReadLockB_eq. cbv zeta. simpl. rewrite queue_of_insert.
    case_decide; subst; [done|]. by destruct st.
  - rewrite WriteLockB_eq. cbv zeta. simpl. rewrite queue_of_insert.
    case_decide; subst; [done|]. by destruct st.
  - pose proof (ReleaseB_queue txn key st k) as Hq.
    destruct (ReleaseB txn key st) as [[] st']. simpl in *. rewrite Hq.
    by case_decide; subst.
  - rewrite StatusB_eq. cbv zeta. simpl. rewrite queue_of_touch.
    by case_decide.
Qed.

(** X12. Under policy B, an exclusive request of a transaction [writer]
    stays in the queue of [key] through every call other than [Release
    writer key]; as long as it is there, every [ReadLock] on [key] is
    refused, whoever asks and whoever owns the key. *)
Theorem queued_writer_keeps_readers_out writer key (c : Call Key Txn) st :
  Exists (λ r, mode_ r = EXCLUSIVE ∧ txn_ r = writer) (queue_of st key) →
  c ≠ CallRelease writer key →
  let st' := (call PolicyB c st).2 in
  Exists (λ r, mode_ r = EXCLUSIVE ∧ txn_ r = writer) (queue_of st' key) ∧
  ∀ txn, (ReadLockB txn key st').1 = false.
Proof.
  intros Hex Hc. cbv zeta.
  assert (Exists (λ r, mode_ r = EXCLUSIVE ∧ txn_ r = writer)
            (queue_of (call PolicyB c st).2 key)) as Hex'.
  { apply Exists_exists in Hex as (r & Hr & Hmode & Htxn).
    apply Exists_exists. exists r. split; [|done].
    rewrite call_B_queue. case_decide as Hk; [|done].
    destruct c as [t k|t k|t k|k o]; simpl in Hk; subst k.
    - apply elem_of_app. by left.
    - apply elem_of_app. by left.
    - apply erase_scan_B_keeps; [done|]. intros Ht. apply Hc.
      congruence.
    - done. }
  split; [done|]. intros txn. apply ReadLockB_refused.
  eapply Exists_impl; [exact Hex'|]. by intros r [? _].
Qed.

(** ** Counting the requests that wait *)

Lemma waiting_insert t key q' st w r :
  (waiting t (mkLockManager (<[key := q']> (lock_table_ st)) w r) +
     waiting_in t (queue_of st key) =
   waiting t st + waiting_in t q')%nat.
Proof.
  unfold waiting, queue_of. simpl.
  set (f := λ (_ : Key) (q : list (LockRequest Txn)) (n : nat),
              (waiting_in t q + n)%nat).
  assert (∀ (m : gmap Key (list (LockRequest Txn))) j1 j2 z1 z2 y,
            j1 ≠ j2 → m !! j1 = Some z1 → m !! j2 = Some z2 →
            f j1 z1 (f j2 z2 y) = f j2 z2 (f j1 z1 y)) as Hcomm.
  { intros. unfold f. lia. }
  destruct (lock_table_ st !! key) as [q|] eqn:Eq; simpl.
  - rewrite <-(insert_delete_eq (lock_table_ st) key q').
    rewrite (map_fold_delete_L f 0%nat key q (lock_table_ st) (Hcomm _) Eq).
    rewrite (map_fold_insert_L f 0%nat key q' (delete key (lock_table_ st))
               (Hcomm _) (lookup_delete_eq _ _)).
    unfold f. lia.
  - rewrite (map_fold_insert_L f 0%nat key q' (lock_table_ st) (Hcomm _) Eq).
    unfold f, waiting_in, requests_of. simpl. lia.
Qed.

(** The requests of a transaction that wait on one key are among those
    that wait on any key. *)
Lemma waiting_in_le t key st :
  (waiting_in t (queue_of st key) ≤ waiting t st)%nat.
Proof.
  pose proof (waiting_insert t key [] st (txn_waits_ st) (ready_txns_ st))
    as Hw.
  unfold waiting_in at 2 in Hw. unfold requests_of in Hw. simpl in Hw. lia.
Qed.

Lemma waiting_in_app t q (rq : LockRequest Txn) :
  waiting_in t (q ++ [rq]) =
    (waiting_in t q +
     match q with
     | [] => 0
     | _ :: _ => if decide (txn_ rq = t) then 1 else 0
     end)%nat.
Proof.
  destruct q as [|r rest]; [done|].
  unfold waiting_in, requests_of. simpl.
  rewrite filter_app, length_app, filter_singleton; [|exact []].
  by case_decide.
Qed.

Lemma wait_entry_insert (w : gmap Txn Z) t t' c :
  wait_entry (<[t' := c]> w) t = if decide (t = t') then c else wait_entry w t.
Proof.
  unfold wait_entry. rewrite lookup_insert.
  by repeat case_decide; subst.
Qed.

Lemma wait_entry_delete (w : gmap Txn Z) t t' :
  wait_entry (delete t' w) t = if decide (t = t') then 0 else wait_entry w t.
Proof.
  unfold wait_entry. rewrite lookup_delete.
  by repeat case_decide; subst.
Qed.

(** ** Policy A: the counters cover the waiting requests *)

Ltac waiting_after :=
  match goal with
  | |- context [waiting ?t (mkLockManager (<[?k := ?q']> (lock_table_ ?st))
                                          ?w ?r)] =>
      pose proof (waiting_insert t k q' st w r)
  end.

Lemma WriteLockA_counters txn key st :
  counters_cover_waiting st → counters_positive st →
  counters_cover_waiting (WriteLockA txn key st).2 ∧
  counters_positive (WriteLockA txn key st).2.
Proof.
  intros Hcover Hpos. rewrite WriteLockA_eq. cbv zeta. simpl snd.
  unfold counters_cover_waiting, counters_positive. simpl.
  split.
  - intros t. waiting_after. rewrite waiting_in_app in *.
    pose proof (Hcover t). pose proof (Hcover txn).
    destruct (queue_of st key) as [|r rest]; simpl in *; [lia|].
    rewrite wait_entry_insert. repeat case_decide; subst; try done; lia.
  - intros t c. pose proof (Hcover txn).
    destruct (queue_of st key) as [|r rest]; simpl; [apply Hpos|].
    rewrite lookup_insert. case_decide; [|apply Hpos].
    intros [= <-]. lia.
Qed.

Lemma waiting_in_erase t txn q :
  (waiting_in t (erase_scan_B txn q) ≤ waiting_in t q)%nat.
Proof.
  destruct q as [|it rest]; [done|].
  rewrite erase_scan_B_cons. unfold waiting_in. case_decide; simpl.
  - destruct rest as [|next rest']; [done|]. simpl.
    rewrite requests_of_cons. case_decide; lia.
  - rewrite erase_scan_B_requests. case_decide; lia.
Qed.

Lemma ReleaseA_counters txn key st :
  counters_cover_waiting st → counters_positive st →
  counters_cover_waiting (ReleaseA txn key st).2 ∧
  counters_positive (ReleaseA txn key st).2.
Proof.
  intros Hcover Hpos. rewrite ReleaseA_eq. cbv zeta. simpl snd.
  assert (∀ t,
    Z.of_nat (waiting t
      (mkLockManager
         (<[key := erase_scan_B txn (queue_of st key)]> (lock_table_ st))
         (txn_waits_ st) (ready_txns_ st))) ≤
    wait_entry (txn_waits_ st) t) as Hsame.
  { intros t. waiting_after.
    pose proof (waiting_in_erase t txn (queue_of st key)).
    pose proof (Hcover t). lia. }
  pose proof (waiting_in_le) as Hle.
  destruct (queue_of st key) as [|it rest] eqn:Eq; [done|].
  rewrite erase_scan_B_cons in *.
  destruct (decide (txn_ it = txn)) as [Hit|Hit]; [|done].
  destruct rest as [|next rest']; [done|].
  assert (1 ≤ wait_entry (txn_waits_ st) (txn_ next)) as Hnext.
  { pose proof (Hle (txn_ next) key st) as Hn. rewrite Eq in Hn.
    unfold waiting_in in Hn. simpl in Hn.
    rewrite requests_of_cons, decide_True in Hn by done.
    pose proof (Hcover (txn_ next)). lia. }
  assert (∀ t w r,
    (waiting t (mkLockManager (<[key := next :: rest']> (lock_table_ st)) w r)
     + (if decide (txn_ next = t) then 1 else 0) = waiting t st)%nat)
    as Hwait.
  { intros t w r. pose proof (waiting_insert t key (next :: rest') st w r)
      as Hw.
    rewrite Eq in Hw. unfold waiting_in in Hw. simpl in Hw.
    rewrite requests_of_cons in Hw. case_decide; lia. }
  unfold counters_cover_waiting, counters_positive.
  case_decide as Hc; simpl.
  - split.
    + intros t. specialize (Hwait t (delete (txn_ next) (txn_waits_ st))
                                    (ready_txns_ st ++ [txn_ next])).
      rewrite wait_entry_delete. pose proof (Hcover t).
      destruct (decide (t = txn_ next)) as [->|Hne].
      * rewrite decide_True in Hwait by done. lia.
      * rewrite decide_False in Hwait by done. lia.
    + intros t c. rewrite lookup_delete.
      case_decide; [done|apply Hpos].
  - split.
    + intros t. specialize (Hwait t
        (<[txn_ next := wait_entry (txn_waits_ st) (txn_ next) - 1]>
           (txn_waits_ st)) (ready_txns_ st)).
      rewrite wait_entry_insert. pose proof (Hcover t).
      destruct (decide (t = txn_ next)) as [->|Hne].
      * rewrite decide_True in Hwait by done. lia.
      * rewrite decide_False in Hwait by done. lia.
    + intros t c. rewrite lookup_insert.
      case_decide; [|apply Hpos]. intros [= <-]. lia.
Qed.

Lemma obs_eq_waiting t st1 st2 :
  lock_table_ st1 = lock_table_ st2 → waiting t st1 = waiting t st2.
Proof. unfold waiting. by intros ->. Qed.

Lemma touch_counters key st :
  counters_cover_waiting st → counters_positive st →
  counters_cover_waiting (touch key st) ∧ counters_positive (touch key st).
Proof.
  intros Hcover Hpos. rewrite touch_eq. split; [|done].
  intros t. simpl. waiting_after. pose proof (Hcover t). lia.
Qed.

Lemma call_A_counters (c : Call Key Txn) st :
  counters_cover_waiting st → counters_positive st →
  counters_cover_waiting (call PolicyA c st).2 ∧
  counters_positive (call PolicyA c st).2.
Proof.
  intros Hcover Hpos.
  destruct c as [txn key|txn key|txn key|key owners]; simpl;
    unfold ReadLockA, mbind, LM_bind, mret, LM_ret.
  - pose proof (WriteLockA_counters txn key st Hcover Hpos).
    by destruct (WriteLockA txn key st).
  - pose proof (WriteLockA_counters txn key st Hcover Hpos).
    by destruct (WriteLockA txn key st).
  - pose proof (ReleaseA_counters txn key st Hcover Hpos).
    by destruct (ReleaseA txn key st).
  - rewrite StatusA_eq.
    destruct (queue_of st key); simpl; by apply touch_counters.
Qed.

Lemma new_manager_counters :
  counters_cover_waiting (new_manager (Key:=Key) (Txn:=Txn)) ∧
  counters_positive (new_manager (Key:=Key) (Txn:=Txn)).
Proof.
  split.
  - intros t. unfold waiting, wait_entry. simpl.
    by rewrite map_fold_empty, lookup_empty.
  - intros t c. simpl. by rewrite lookup_empty.
Qed.

Lemma run_cons p (c : Call Key Txn) calls st :
  run p (c :: calls) st =
    let '(r, st1) := call p c st in
    let '(rs, st2) := run p calls st1 in
    (r :: rs, st2).
Proof. reflexivity. Qed.

Lemma run_A_counters (calls : list (Call Key Txn)) st :
  counters_cover_waiting st → counters_positive st →
  counters_cover_waiting (run PolicyA calls st).2 ∧
  counters_positive (run PolicyA calls st).2.
Proof.
  revert st. induction calls as [|c calls IH]; intros st Hcover Hpos;
    [done|].
  rewrite run_cons.
  destruct (call_A_counters c st Hcover Hpos) as [Hc1 Hc2].
  destruct (call PolicyA c st) as [r st1]. simpl in Hc1, Hc2.
  specialize (IH st1 Hc1 Hc2).
  destruct (run PolicyA calls st1) as [rs st2]. exact IH.
Qed.

(** X13. Under policy A, in every state a manager reaches from its
    construction, the wait counter of a transaction (0 when it has none)
    is at least the number of its requests that stand behind the front of
    their queue, over all keys together and so on every single key: the
    counter never runs out before the requests are granted. *)
Theorem policy_A_counters_cover_waiting (calls : list (Call Key Txn)) t key :
  let st := (run PolicyA calls new_manager).2 in
  Z.of_nat (waiting t st) ≤ wait_entry (txn_waits_ st) t ∧
  Z.of_nat (requests_of t (tail (queue_of st key))) ≤
    wait_entry (txn_waits_ st) t.
Proof.
  cbv zeta.
  destruct new_manager_counters as [Hc0 Hp0].
  destruct (run_A_counters calls _ Hc0 Hp0) as [Hcover _].
  pose proof (Hcover t).
  pose proof (waiting_in_le t key (run PolicyA calls new_manager).2) as Hle.
  unfold waiting_in in Hle. split; [done|lia].
Qed.

(** X14. Under policy A, a transaction that a call appends to the ready
    queue has, after that call, no request behind the front of any queue:
    every lock it asked for and still holds a request on is granted.  This
    holds in every state reached from the construction of the manager. *)
Theorem policy_A_ready_means_granted (calls : list (Call Key Txn)) c t :
  let st := (run PolicyA calls new_manager).2 in
  let st' := (call PolicyA c st).2 in
  t ∈ drop (length (ready_txns_ st)) (ready_txns_ st') →
  txn_waits_ st' !! t = None ∧
  ∀ key, t ∉ txn_ <$> tail (queue_of st' key).
Proof.
  cbv zeta. set (st := (run PolicyA calls new_manager).2).
  destruct (call_appends_erased PolicyA c st) as (promoted & Hr & _ & Hp).
  rewrite Hr, drop_app_length. intros [_ Hnone]%Hp.
  split; [done|]. intros key.
  destruct new_manager_counters as [Hc0 Hp0].
  destruct (run_A_counters calls _ Hc0 Hp0) as [Hcover Hpos].
  destruct (call_A_counters c st Hcover Hpos) as [Hcover' _].
  pose proof (Hcover' t) as Ht. unfold wait_entry in Ht.
  rewrite Hnone in Ht. simpl in Ht.
  pose proof (waiting_in_le t key (call PolicyA c st).2) as Hle.
  unfold waiting_in, requests_of in Hle.
  intros (r & Htxn & Hin)%list_elem_of_fmap.
  assert (r ∈ filter (λ r, txn_ r = t) (tail (queue_of (call PolicyA c st).2 key)))
    as Hf by (by apply list_elem_of_filter).
  destruct (filter _ _); [by apply not_elem_of_nil in Hf|].
  simpl in Hle. lia.
Qed.

(** ** The ready queue and the counters over a run *)

(** X15. Whatever the policy and the calls, the manager only appends to
    the ready queue: the ready queue before a sequence of calls is a
    prefix of the ready queue after it. *)
Theorem ready_queue_only_grows p (calls : list (Call Key Txn)) st :
  ready_txns_ st `prefix_of` ready_txns_ (run p calls st).2.
Proof.
  revert st. induction calls as [|c calls IH]; intros st; [done|].
  rewrite run_cons.
  destruct (call_appends_erased p c st) as (promoted & Hr & _).
  destruct (call p c st) as [r st1]. simpl in Hr.
  specialize (IH st1).
  destruct (run p calls st1) as [rs st2]. simpl in *.
  etrans; [|exact IH]. rewrite Hr. by apply prefix_app_r.
Qed.

Lemma promote_owners_positive (owners : list Txn) st :
  counters_positive st → counters_positive (promote_owners owners st).2.
Proof.
  revert st. induction owners as [|o owners IH]; intros st Hpos; [done|].
  simpl. unfold mbind, LM_bind.
  assert (counters_positive (promote_owner o st).2) as Hpos1.
  { intros t c. rewrite promote_owner_lookup.
    case_decide; [|apply Hpos]. unfold promoted_entry.
    destruct (txn_waits_ st !! o) as [c0|] eqn:Eo; [|done].
    pose proof (Hpos o c0 Eo). case_decide; [done|].
    intros [= <-]. lia. }
  destruct (promote_owner o st) as [[] st1]. by apply IH.
Qed.

Lemma incr_positive txn (w : gmap Txn Z) :
  (∀ t c, w !! t = Some c → 1 ≤ c) →
  ∀ t c, <[txn := wait_entry w txn + 1]> w !! t = Some c → 1 ≤ c.
Proof.
  intros Hpos t c. rewrite lookup_insert. case_decide; [|apply Hpos].
  intros [= <-]. unfold wait_entry.
  destruct (w !! txn) as [c0|] eqn:E; simpl; [|lia].
  pose proof (Hpos txn c0 E). lia.
Qed.

Lemma call_B_positive (c : Call Key Txn) st :
  counters_positive st → counters_positive (call PolicyB c st).2.
Proof.
  intros Hpos.
  destruct c as [txn key|txn key|txn key|key owners]; simpl;
    unfold mbind, LM_bind, mret, LM_ret.
  - rewrite ReadLockB_eq. cbv zeta. unfold counters_positive. simpl.
    destruct (_ || _); [done|]. by apply incr_positive.
  - rewrite WriteLockB_eq. cbv zeta. unfold counters_positive. simpl.
    destruct (bool_decide _); [done|]. by apply incr_positive.
  - rewrite ReleaseB_eq. cbv zeta.
    pose proof (promote_owners_positive
      (txn_ <$> accepted EXCLUSIVE (erase_scan_B txn (queue_of st key)))
      (mkLockManager
         (<[key := erase_scan_B txn (queue_of st key)]> (lock_table_ st))
         (txn_waits_ st) (ready_txns_ st)) Hpos) as Hp.
    by destruct (promote_owners _ _).
  - rewrite StatusB_eq, touch_eq. done.
Qed.

(** X16. Under both policies, in every state a manager reaches from its
    construction, every counter stored in [txn_waits_] is at least 1: a
    counter that reaches zero is erased at once, and none goes below. *)
Theorem stored_counters_are_positive p (calls : list (Call Key Txn)) t c :
  txn_waits_ (run p calls new_manager).2 !! t = Some c → 1 ≤ c.
Proof.
  destruct new_manager_counters as [Hc0 Hp0].
  destruct p.
  - destruct (run_A_counters calls _ Hc0 Hp0) as [_ Hpos]. apply Hpos.
  - assert (∀ st, counters_positive st →
                  counters_positive (run PolicyB calls st).2) as Hrun.
    { induction calls as [|c' calls IH]; intros st Hpos; [done|].
      rewrite run_cons.
      pose proof (call_B_positive c' st Hpos) as Hc.
      destruct (call PolicyB c' st) as [r st1]. simpl in Hc.
      specialize (IH st1 Hc).
      by destruct (run PolicyB calls st1). }
    apply (Hrun _ Hp0).
Qed.

(** ** Policy A: exact counters when only owners release *)

Lemma WriteLockA_exact txn key st :
  (∀ t, wait_entry (txn_waits_ st) t = Z.of_nat (waiting t st)) →
  ∀ t, wait_entry (txn_waits_ (WriteLockA txn key st).2) t =
       Z.of_nat (waiting t (WriteLockA txn key st).2).
Proof.
  intros Hexact t. rewrite WriteLockA_eq. cbv zeta. simpl.
  waiting_after. rewrite waiting_in_app in *.
  pose proof (Hexact t). pose proof (Hexact txn).
  assert (waiting_in t [] = 0%nat) as Hnil by done.
  destruct (queue_of st key) as [|r rest]; simpl in *; [lia|].
  rewrite wait_entry_insert.
  destruct (decide (t = txn)) as [->|Hne].
  - rewrite decide_True in * by done. lia.
  - rewrite decide_False in * by done. lia.
Qed.

Lemma ReleaseA_exact txn key st :
  release_hits_front txn (queue_of st key) →
  (∀ t, wait_entry (txn_waits_ st) t = Z.of_nat (waiting t st)) →
  ∀ t, wait_entry (txn_waits_ (ReleaseA txn key st).2) t =
       Z.of_nat (waiting t (ReleaseA txn key st).2).
Proof.
  intros Hfront Hexact t. rewrite ReleaseA_eq. cbv zeta. simpl snd.
  pose proof (Hexact t) as Ht.
  destruct (queue_of st key) as [|it rest] eqn:Eq.
  { simpl.
    pose proof (waiting_insert t key [] st (txn_waits_ st) (ready_txns_ st))
      as Hw.
    rewrite Eq in Hw. lia. }
  rewrite erase_scan_B_cons.
  destruct (decide (txn_ it = txn)) as [Hit|Hit].
  - destruct rest as [|next rest'].
    { simpl.
      pose proof (waiting_insert t key [] st (txn_waits_ st) (ready_txns_ st))
        as Hw.
      rewrite Eq in Hw.
      assert (waiting_in t [it] = 0%nat) as Hone by done.
      assert (waiting_in t [] = 0%nat) as Hnil by done. lia. }
    assert (∀ w r,
      (waiting t (mkLockManager (<[key := next :: rest']> (lock_table_ st))
                                w r)
       + (if decide (txn_ next = t) then 1 else 0) = waiting t st)%nat)
      as Hwait.
    { intros w r.
      pose proof (waiting_insert t key (next :: rest') st w r) as Hw.
      rewrite Eq in Hw. unfold waiting_in in Hw. simpl in Hw.
      rewrite requests_of_cons in Hw. case_decide; lia. }
    pose proof (Hexact (txn_ next)) as Hn.
    destruct (decide (wait_entry (txn_waits_ st) (txn_ next) - 1 = 0))
      as [Hc|Hc]; cbn [snd txn_waits_].
    + specialize (Hwait (delete (txn_ next) (txn_waits_ st))
                        (ready_txns_ st ++ [txn_ next])).
      rewrite wait_entry_delete.
      destruct (decide (t = txn_ next)) as [->|Hne].
      * rewrite decide_True in Hwait by done. lia.
      * rewrite decide_False in Hwait by done. lia.
    + specialize (Hwait
        (<[txn_ next := wait_entry (txn_waits_ st) (txn_ next) - 1]>
           (txn_waits_ st)) (ready_txns_ st)).
      rewrite wait_entry_insert.
      destruct (decide (t = txn_ next)) as [->|Hne].
      * rewrite decide_True in Hwait by done. lia.
      * rewrite decide_False in Hwait by done. lia.
  - destruct Hfront as [?|Habsent]; [done|].
    rewrite (erase_scan_B_absent _ _ Habsent). simpl.
    pose proof (waiting_insert t key (it :: rest) st (txn_waits_ st)
                  (ready_txns_ st)) as Hw.
    rewrite Eq in Hw. lia.
Qed.

Lemma waiting_none t st :
  (∀ key, waiting_in t (queue_of st key) = 0%nat) → waiting t st = 0%nat.
Proof.
  unfold waiting, queue_of. generalize (lock_table_ st). clear st.
  intros tbl.
  apply (map_fold_weak_ind
    (λ n (m : gmap Key (list (LockRequest Txn))),
       (∀ key, waiting_in t (default [] (m !! key)) = 0%nat) → n = 0%nat)).
  - done.
  - intros key q m n Hfresh IH Hall.
    pose proof (Hall key) as Hkey. rewrite lookup_insert_eq in Hkey.
    simpl in Hkey. rewrite Hkey, IH; [done|].
    intros k. specialize (Hall k).
    destruct (decide (key = k)) as [->|Hne].
    + by rewrite Hfresh.
    + by rewrite lookup_insert_ne in Hall.
Qed.

Lemma run_A_exact (calls : list (Call Key Txn)) st :
  owners_release calls st →
  (∀ t, wait_entry (txn_waits_ st) t = Z.of_nat (waiting t st)) →
  ∀ t, wait_entry (txn_waits_ (run PolicyA calls st).2) t =
       Z.of_nat (waiting t (run PolicyA calls st).2).
Proof.
  revert st. induction calls as [|c calls IH]; intros st Hrel Hexact;
    [done|].
  destruct Hrel as [Hc Hrel]. rewrite run_cons.
  assert (∀ t, wait_entry (txn_waits_ (call PolicyA c st).2) t =
               Z.of_nat (waiting t (call PolicyA c st).2)) as Hstep.
  { clear IH Hrel.
    destruct c as [txn key|txn key|txn key|key owners]; simpl;
      unfold ReadLockA, mbind, LM_bind, mret, LM_ret.
    - pose proof (WriteLockA_exact txn key st Hexact).
      by destruct (WriteLockA txn key st).
    - pose proof (WriteLockA_exact txn key st Hexact).
      by destruct (WriteLockA txn key st).
    - pose proof (ReleaseA_exact txn key st Hc Hexact).
      by destruct (ReleaseA txn key st).
    - rewrite StatusA_eq, touch_eq. intros t.
      pose proof (waiting_insert t key (queue_of st key) st (txn_waits_ st)
                    (ready_txns_ st)) as Hw.
      pose proof (Hexact t).
      destruct (queue_of st key); simpl in *; lia. }
  destruct (call PolicyA c st) as [r st1]. simpl in Hstep, Hrel.
  specialize (IH st1 Hrel Hstep).
  destruct (run PolicyA calls st1) as [rs st2]. exact IH.
Qed.

(** X17. Under policy A, when every [Release] of a run that starts at the
    construction of the manager finds its request at the front of the
    queue (or finds none), the wait counter of a transaction is exactly
    the number of its requests that stand behind the front of their
    queue; so a transaction has a counter exactly when one of its requests
    still waits on some key. *)
Theorem policy_A_counters_exact (calls : list (Call Key Txn)) t :
  owners_release calls new_manager →
  let st := (run PolicyA calls new_manager).2 in
  wait_entry (txn_waits_ st) t = Z.of_nat (waiting t st) ∧
  (txn_waits_ st !! t = None ↔
   ∀ key, t ∉ txn_ <$> tail (queue_of st key)).
Proof.
  intros Hrel. cbv zeta.
  assert (∀ t,
    wait_entry (txn_waits_ (new_manager (Key:=Key) (Txn:=Txn))) t =
    Z.of_nat (waiting t (new_manager (Key:=Key) (Txn:=Txn))))
    as Hexact0.
  { intros t'. unfold waiting, wait_entry. simpl.
    by rewrite map_fold_empty, lookup_empty. }
  pose proof (run_A_exact calls _ Hrel Hexact0) as Hexact.
  destruct new_manager_counters as [Hc0 Hp0].
  destruct (run_A_counters calls _ Hc0 Hp0) as [_ Hpos].
  set (st := (run PolicyA calls new_manager).2) in *.
  split; [apply Hexact|].
  assert (∀ key, waiting_in t (queue_of st key) = 0%nat ↔
                 t ∉ txn_ <$> tail (queue_of st key)) as Hkey.
  { intros key. unfold waiting_in, requests_of. split.
    - intros Hlen (r & Htxn & Hin)%list_elem_of_fmap.
      assert (r ∈ filter (λ r, txn_ r = t) (tail (queue_of st key))) as Hf
        by (by apply list_elem_of_filter).
      destruct (filter _ _); [by apply not_elem_of_nil in Hf|done].
    - intros Hout.
      destruct (filter (λ r, txn_ r = t) (tail (queue_of st key)))
        as [|r l] eqn:Ef; [done|].
      exfalso. apply Hout.
      assert (r ∈ filter (λ r, txn_ r = t) (tail (queue_of st key))) as Hf
        by (rewrite Ef; left).
      apply list_elem_of_filter in Hf as [Htxn Hin].
      apply list_elem_of_fmap. by exists r. }
  specialize (Hexact t). split.
  - intros Hnone key. apply Hkey.
    unfold wait_entry in Hexact. rewrite Hnone in Hexact. simpl in Hexact.
    pose proof (waiting_in_le t key st). lia.
  - intros Hall.
    assert (waiting t st = 0%nat) as Hzero.
    { apply waiting_none. intros key. by apply Hkey. }
    rewrite Hzero in Hexact. unfold wait_entry in Hexact.
    destruct (txn_waits_ st !! t) as [c|] eqn:Ec; [|done].
    pose proof (Hpos t c Ec). simpl in Hexact. lia.
Qed.

End FurtherProperties.

(** ** The further properties at work on concrete states *)

(** X1 at work: a second writer on key x. *)
Lemma WriteLockB_is_WriteLockA_witness :
  let st := (WriteLockB (Key:=string) 1%nat "x" new_manager).2 in
  Forall (λ r, mode_ r ≠ UNLOCKED) (queue_of st "x") ∧
  WriteLockB 2%nat "x" st = WriteLockA 2%nat "x" st.
Proof.
  intros st.
  assert (Forall (λ r, mode_ r ≠ UNLOCKED) (queue_of st "x")) as Hvalid.
  { vm_compute. repeat constructor. discriminate. }
  split; [done|].
  by destruct (WriteLockB_is_WriteLockA 2%nat "x" st Hvalid) as [Heq _].
Defined.

(** X2 at work: a reader or a writer arriving behind the reader 1. *)
Lemma lock_answer_agrees_with_owners_witness :
  let st := (ReadLockB (Key:=string) 1%nat "y" new_manager).2 in
  Forall (λ r, mode_ r ≠ UNLOCKED) (queue_of st "y") ∧
  (let '(granted, st') := ReadLockB 2%nat "y" st in
   ownersB st' "y" =
     if granted then txn_ <$> queue_of st' "y" else ownersB st "y") ∧
  (let '(granted, st') := WriteLockB 2%nat "y" st in
   ownersB st' "y" = if granted then [2%nat] else ownersB st "y").
Proof.
  intros st.
  assert (Forall (λ r, mode_ r ≠ UNLOCKED) (queue_of st "y")) as Hvalid.
  { vm_compute. repeat constructor. discriminate. }
  split; [done|].
  exact (lock_answer_agrees_with_owners 2%nat "y" st Hvalid).
Defined.

(** X3 at work: two readers on key y. *)
Lemma noExclusiveWaiting_iff_all_owners_witness :
  let st :=
    (ReadLockB 2%nat "y"
       (ReadLockB (Key:=string) 1%nat "y" new_manager).2).2 in
  (Forall (λ r, mode_ r ≠ UNLOCKED) (queue_of st "y") ∧
   queue_of st "y" ≠ [] ∧
   (_noExclusiveWaiting "y" st).1 = true) ∧
  (StatusB "y" (Some []) st).1 =
    (SHARED, Some (txn_ <$> queue_of st "y")) ∧
  (lock_table_ st !! "z" = None ∧ (_noExclusiveWaiting "z" st).1 = true).
Proof.
  intros st.
  assert (Forall (λ r, mode_ r ≠ UNLOCKED) (queue_of st "y")) as Hvalid.
  { vm_compute. repeat constructor; discriminate. }
  assert (queue_of st "y" ≠ []) as Hne by (vm_compute; discriminate).
  assert ((_noExclusiveWaiting "y" st).1 = true) as Hy
    by (vm_compute; reflexivity).
  assert (lock_table_ st !! "z" = None) as Hz by (vm_compute; reflexivity).
  destruct (noExclusiveWaiting_iff_all_owners "y" st)
    as (_ & _ & _ & Hiff).
  destruct (noExclusiveWaiting_iff_all_owners "z" st)
    as (_ & _ & Hunseen & _).
  split; [done|]. split; [by apply (Hiff Hvalid Hne)|].
  split; [done|by apply Hunseen].
Defined.

(** X4 at work: the vector [7; 8] of the caller, on a free key and on a
    key that is held. *)
Lemma Status_and_owners_vector_witness :
  let st := (WriteLockB (Key:=string) 1%nat "x" new_manager).2 in
  (lock_table_ st !! "z" = None ∧
   (StatusB "z" (Some [7%nat; 8%nat]) st).1 =
     (UNLOCKED, Some [7%nat; 8%nat])) ∧
  (queue_of st "x" ≠ [] ∧
   (StatusB "x" (Some [7%nat; 8%nat]) st).1 =
     (StatusB "x" (Some []) st).1).
Proof.
  intros st.
  assert (lock_table_ st !! "z" = None) as Hz by (vm_compute; reflexivity).
  assert (queue_of st "x" ≠ []) as Hx by (vm_compute; discriminate).
  destruct (Status_and_owners_vector "z" [7%nat; 8%nat] st)
    as (Hunseen & Hempty & _).
  destruct (Status_and_owners_vector "x" [7%nat; 8%nat] st)
    as (_ & _ & Hheld).
  split.
  - split; [done|]. by apply Hempty, Hunseen.
  - split; [done|]. by apply Hheld.
Defined.

(** X5 at work: reader 1 at the front of key y, writer 3 behind. *)
Lemma front_request_is_first_owner_witness :
  let st :=
    (WriteLockB 3%nat "y"
       (ReadLockB (Key:=string) 1%nat "y" new_manager).2).2 in
  queue_of st "y" =
    [mkLockRequest SHARED 1%nat; mkLockRequest EXCLUSIVE 3%nat] ∧
  head (ownersA st "y") = Some 1%nat ∧
  head (ownersB st "y") = Some 1%nat ∧
  (StatusB "y" None st).1.1 = SHARED.
Proof.
  intros st.
  assert (queue_of st "y" =
            [mkLockRequest SHARED 1%nat; mkLockRequest EXCLUSIVE 3%nat])
    as Hq by (vm_compute; reflexivity).
  destruct (front_request_is_first_owner "y" st _ _ Hq) as (HA & HB & Hm).
  split; [done|]. split; [done|]. split; [done|].
  apply Hm. rewrite Hq. repeat constructor; discriminate.
Defined.

(** X6 at work: key y is looked up for the first time, key x is held. *)
Lemma getLockQueue_creates_once_witness :
  let st := (WriteLockB (Key:=string) 1%nat "x" new_manager).2 in
  (lock_table_ st !! "y" = None ∧ "x" ≠ "y") ∧
  (_getLockQueue "y" st).1 = [] ∧
  lock_table_ (_getLockQueue "y" st).2 !! "x" = lock_table_ st !! "x".
Proof.
  intros st.
  assert (lock_table_ st !! "y" = None) as Hy by (vm_compute; reflexivity).
  assert ("x" ≠ "y") as Hxy by discriminate.
  split; [done|].
  pose proof (getLockQueue_creates_once "y" st) as Hw.
  destruct (_getLockQueue "y" st) as [dq st'].
  destruct Hw as (_ & Hnew & _ & Hother & _).
  split; [by apply Hnew|by apply Hother].
Defined.

(** X7 at work: a release on key x leaves the entry of key y alone. *)
Lemma call_keeps_the_table_witness :
  let st :=
    (WriteLockA 2%nat "y"
       (WriteLockA (Key:=string) 1%nat "x" new_manager).2).2 in
  "y" ≠ "x" ∧
  lock_table_ (call PolicyA (CallRelease 1%nat "x") st).2 !! "y" =
    lock_table_ st !! "y".
Proof.
  intros st. assert ("y" ≠ "x") as Hxy by discriminate.
  split; [done|].
  destruct (call_keeps_the_table PolicyA (CallRelease 1%nat "x") st)
    as [_ Hother].
  by apply Hother.
Defined.

(** X9 at work: the writer 1 leaves key y to the readers 2 and 3. *)
Lemma ReleaseB_promotes_the_owners_witness :
  let st :=
    (ReadLockB 3%nat "y"
       (ReadLockB 2%nat "y"
          (WriteLockB (Key:=string) 1%nat "y" new_manager).2).2).2 in
  let st' := (ReleaseB 1%nat "y" st).2 in
  NoDup (ownersB st' "y") ∧
  ready_txns_ st' =
    ready_txns_ st ++
      filter (λ t, txn_waits_ st !! t = Some 1) (ownersB st' "y").
Proof.
  intros st st'.
  assert (NoDup (ownersB st' "y")) as Hnd.
  { apply (bool_decide_unpack _). vm_compute. exact I. }
  split; [done|].
  by destruct (ReleaseB_promotes_the_owners 1%nat "y" st Hnd)
    as (_ & _ & _ & Hr).
Defined.

(** X10 at work: key x is free. *)
Lemma lock_then_release_on_free_key_witness :
  queue_of (new_manager (Key:=string) (Txn:=nat)) "x" = [] ∧
  obs_eq (ReleaseB 1%nat "x" (ReadLockB 1%nat "x" new_manager).2).2
         (new_manager (Key:=string) (Txn:=nat)).
Proof.
  assert (queue_of (new_manager (Key:=string) (Txn:=nat)) "x" = []) as Hq
    by reflexivity.
  split; [done|].
  by destruct (lock_then_release_on_free_key 1%nat "x" new_manager Hq)
    as (_ & _ & _ & Hobs).
Defined.

(** X11 at work: transaction 7 has no request on key y, owned by 1. *)
Lemma ReleaseB_absent_noop_witness :
  let st := (ReadLockB (Key:=string) 1%nat "y" new_manager).2 in
  (Forall (λ r, txn_ r ≠ 7%nat) (queue_of st "y") ∧
   ∀ t, t ∈ ownersB st "y" → txn_waits_ st !! t = None) ∧
  obs_eq (ReleaseB 7%nat "y" st).2 st.
Proof.
  intros st.
  assert (Forall (λ r, txn_ r ≠ 7%nat) (queue_of st "y")) as Habsent.
  { vm_compute. repeat constructor. lia. }
  assert (∀ t, t ∈ ownersB st "y" → txn_waits_ st !! t = None) as Hnone.
  { intros t Ht. vm_compute. reflexivity. }
  split; [done|].
  exact (ReleaseB_absent_noop 7%nat "y" st Habsent Hnone).
Defined.

(** X12 at work: the writer 3 waits behind the reader 1; the release of
    the reader does not let the reader 4 in. *)
Lemma queued_writer_keeps_readers_out_witness :
  let st :=
    (WriteLockB 3%nat "y"
       (ReadLockB (Key:=string) 1%nat "y" new_manager).2).2 in
  (Exists (λ r, mode_ r = EXCLUSIVE ∧ txn_ r = 3%nat) (queue_of st "y") ∧
   CallRelease 1%nat "y" ≠ CallRelease 3%nat "y") ∧
  (ReadLockB 4%nat "y" (call PolicyB (CallRelease 1%nat "y") st).2).1 = false.
Proof.
  intros st.
  assert (Exists (λ r, mode_ r = EXCLUSIVE ∧ txn_ r = 3%nat)
            (queue_of st "y")) as Hex.
  { vm_compute. apply Exists_cons_tl, Exists_cons_hd. by split. }
  assert (CallRelease (Key:=string) 1%nat "y" ≠ CallRelease 3%nat "y")
    as Hc by discriminate.
  split; [done|].
  destruct (queued_writer_keeps_readers_out 3%nat "y" _ st Hex Hc)
    as [_ Hout].
  apply Hout.
Defined.

(** X14 at work: transaction 2 is made ready by the release of key x. *)
Lemma policy_A_ready_means_granted_witness :
  let calls : list (Call string nat) :=
    [CallWriteLock 1%nat "x"; CallWriteLock 2%nat "x"] in
  let st := (run PolicyA calls new_manager).2 in
  let st' := (call PolicyA (CallRelease 1%nat "x") st).2 in
  2%nat ∈ drop (length (ready_txns_ st)) (ready_txns_ st') ∧
  txn_waits_ st' !! 2%nat = None ∧
  2%nat ∉ txn_ <$> tail (queue_of st' "x").
Proof.
  intros calls st st'.
  assert (2%nat ∈ drop (length (ready_txns_ st)) (ready_txns_ st')) as Hin.
  { vm_compute. left. }
  split; [done|].
  destruct (policy_A_ready_means_granted calls (CallRelease 1%nat "x")
              2%nat Hin) as [Hnone Hfront].
  split; [done|apply Hfront].
Defined.

(** X16 at work: transaction 2 waits for key x with a counter of 1. *)
Lemma stored_counters_are_positive_witness :
  let calls : list (Call string nat) :=
    [CallWriteLock 1%nat "x"; CallWriteLock 2%nat "x"] in
  txn_waits_ (run PolicyB calls new_manager).2 !! 2%nat = Some 1 ∧ 1 ≤ 1.
Proof.
  intros calls.
  assert (txn_waits_ (run PolicyB calls new_manager).2 !! 2%nat = Some 1)
    as Hc by (vm_compute; reflexivity).
  split; [done|].
  exact (stored_counters_are_positive PolicyB calls 2%nat 1 Hc).
Defined.

(** X17 at work: transactions 1 and 2 on key x, released in turn. *)
Lemma policy_A_counters_exact_witness :
  let calls : list (Call string nat) :=
    [CallWriteLock 1%nat "x"; CallWriteLock 2%nat "x";
     CallRelease 1%nat "x"] in
  owners_release calls new_manager ∧
  wait_entry (txn_waits_ (run PolicyA calls new_manager).2) 2%nat =
    Z.of_nat (waiting 2%nat (run PolicyA calls new_manager).2).
Proof.
  intros calls.
  assert (owners_release calls new_manager) as Hrel.
  { vm_compute. repeat split. by left. }
  split; [done|].
  by destruct (policy_A_counters_exact calls 2%nat Hrel) as [Hexact _].
Defined.
